(** * geospatial-fe: the view-state driven layer orchestration, embedded in Rocq

    The development follows the TypeScript sources:
    - [src/lib/mapUtils.ts]        bounding box and default filters,
    - [src/hooks/useGeoLayers.ts]  query builder, query keys, species filter,
    - [src/hooks/useMapsPage.ts]   visible-layer set, reconciliation, toggling,
    - [src/services/geoService.ts] forest / cadastre fetch and layer assembly,
    - [src/services/authService.ts] registration request.

    JavaScript numbers are IEEE-754 binary64 values and are modelled by the
    kernel's primitive floats; a [Set<string>] is a [gset string]; a [Map]
    whose iteration order is observable is an association list in insertion
    order; [try]/[throw]/[catch] is an explicit completion monad. *)

From Stdlib Require Import PrimFloat ZArith NArith Ascii String.
From stdpp Require Import base decidable option list strings gmap sorting.

Set Warnings "-inexact-float".
Local Open Scope string_scope.
Local Open Scope list_scope.

(* ================================================================= *)
(** ** JavaScript helpers *)

(** [a || d] on an optional string: [undefined] and the empty string are the
    falsy cases. *)
Definition js_or (a : option string) (d : string) : string :=
  match a with
  | Some s => if decide (s = "") then d else s
  | None => d
  end.

(** [!a?.length] on an optional array. *)
Definition js_no_length {A : Type} (a : option (list A)) : bool :=
  match a with
  | Some (_ :: _) => false
  | _ => true
  end.

(** [a?.includes(x)], coerced to a boolean by the caller ([undefined] is falsy). *)
Definition js_includes (a : option (list string)) (x : string) : bool :=
  match a with
  | Some l => bool_decide (x ∈ l)
  | None => false
  end.

Definition two52 : float := 0x1p52%float.

(** [Math.floor]: below 2^52 in magnitude the nearest integer is obtained by
    adding and removing 2^52, then stepping down when that rounded up; every
    larger double, the infinities and NaN are returned as they are. *)
Definition Math_floor (x : float) : float :=
  if (abs x <? two52)%float then
    let r := if (0 <=? x)%float then ((x + two52) - two52)%float
             else ((x - two52) + two52)%float in
    if (x <? r)%float then (r - 1)%float else r
  else x.

(** [Math.round]: the closest integer, ties towards +infinity; zeros keep their
    sign and a negative input that rounds to zero gives -0. *)
Definition Math_round (x : float) : float :=
  if (abs x <? two52)%float then
    if (x =? 0)%float then x else
    let f := Math_floor x in
    let r := if (x - f <? 0.5)%float then f else (f + 1)%float in
    if ((r =? 0)%float && (x <? 0)%float) then (-0)%float else r
  else x.

(** A value whose type the code does not know ([any]), as far as the code
    looks at it: whether it is truthy, and the string it converts to.  A
    string is truthy when it is not empty; the empty array is truthy and
    converts to the empty string; the number 0 is falsy and converts to "0". *)
Record JsAny := { js_truthy : bool; js_toString : string }.

Definition js_string (s : string) : JsAny :=
  {| js_truthy := negb (bool_decide (s = "")); js_toString := s |}.

Definition js_empty_array : JsAny := {| js_truthy := true; js_toString := "" |}.

(** Completion of a JavaScript computation: a value, or a thrown error.  The
    two fields read from the body of an error answer are of unknown type;
    [None] is [undefined]. *)
Record ErrorResponse := {
  er_status : Z;
  er_message : option JsAny;   (* error.response.data?.message *)
  er_error : option JsAny;     (* error.response.data?.error *)
}.

Inductive JsError :=
  | ResponseError (r : ErrorResponse)   (* the server answered with an error status *)
  | RequestError                        (* no answer: error.request is set *)
  | PlainError (message : string).      (* new Error(message) *)

Inductive Completion (A : Type) : Type :=
  | Normal (a : A)
  | Throw (e : JsError).
Arguments Normal {A} a.
Arguments Throw {A} e.

Global Instance completion_ret : MRet Completion := fun A a => Normal a.
Global Instance completion_bind : MBind Completion := fun A B k c =>
  match c with
  | Normal a => k a
  | Throw e => Throw e
  end.

(** [try { c } catch (error) { handler error }] *)
Definition try_catch {A : Type} (c : Completion A) (handler : JsError -> Completion A)
  : Completion A :=
  match c with
  | Normal a => Normal a
  | Throw e => handler e
  end.

(* ================================================================= *)
(** ** Data model ([src/types/map.ts]) *)

Record MapViewState := {
  latitude : float;
  longitude : float;
  zoom : float;
  bearing : float;
  pitch : float;
}.

Record DateRange := { from : Z; to : Z }.

Record MapFilters := {
  region : option string;
  department : option string;
  commune : option string;
  treeSpecies : option (list string);
  showCadastre : bool;
  dateRange : option DateRange;
}.

Definition BBox : Type := float * float * float * float.

Record GeospatialQuery := {
  bbox : option BBox;
  q_zoom : float;
  filters : option MapFilters;
  limit : option float;
  page : option float;
}.

Record Polygon := { coordinates : list (list (list float)) }.

Inductive Geometry :=
  | GeoPolygon (p : Polygon)
  | GeoOther (kind : string).

(** A GeoJSON feature; [properties] may be [null]. *)
Record Feature (P : Type) := {
  properties : option P;
  geometry : Geometry;
}.
Arguments properties {P} _.
Arguments geometry {P} _.

Record FeatureCollection (P : Type) := {
  fc_type : string;
  features : list (Feature P);
}.
Arguments fc_type {P} _.
Arguments features {P} _.

(** Properties of a forest parcel as [GET /geo/forest] sends them. *)
Record ForestProps := {
  fp_id : option string;
  species : option string;
  commonName : option string;
}.

Record CadastreProps := {
  cp_id : string;
  cp_type : string;
  parcelNumber : string;
  cp_area : float;
  cp_landUse : string;
  cp_owner : option string;
}.

Record CadastreParcel := {
  parcel_id : string;
  reference : string;
  parcel_geometry : Polygon;
  area : float;
  owner : option string;
  landUse : string;
}.

Inductive LayerType := forest | species_layer | parcel.

Record ForestLayer := {
  fl_id : string;
  fl_name : string;
  fl_type : LayerType;
  fl_visible : bool;
  fl_opacity : float;
  fl_species : option string;
  fl_geoData : FeatureCollection ForestProps;
}.

Record CadastreLayer := {
  cl_id : string;
  cl_name : string;
  cl_visible : bool;
  cl_opacity : float;
  cl_geoData : FeatureCollection CadastreProps;
  cl_commune : option string;
}.

(* ================================================================= *)
(** ** [src/lib/mapUtils.ts] *)

Record LatLng := { lat : float; lng : float }.

Section MapUtils.
(** [Math.pow] is the engine's; the bounding box only needs it as a function. *)
Variable Math_pow : float -> float -> float.

Definition calculateBoundingBox (center : LatLng) (zoom : float) : BBox :=
  let zoomFactor := Math_pow 2%float (14 - zoom)%float in
  let deltaLat := (0.01 * zoomFactor)%float in
  let deltaLng := (0.015 * zoomFactor)%float in
  ((lng center - deltaLng)%float,   (* west *)
   (lat center - deltaLat)%float,   (* south *)
   (lng center + deltaLng)%float,   (* east *)
   (lat center + deltaLat)%float).  (* north *)
End MapUtils.

Definition createDefaultFilters : MapFilters :=
  {| region := None; department := None; commune := None;
     treeSpecies := Some []; showCadastre := false; dateRange := None |}.

Definition shouldShowCadastreAtZoom (zoom : float) : bool := (14 <=? zoom)%float.

(* ================================================================= *)
(** ** [src/hooks/useGeoLayers.ts] *)

(** [{...f, treeSpecies: undefined}] *)
Definition withoutTreeSpecies (f : MapFilters) : MapFilters :=
  {| region := region f; department := department f; commune := commune f;
     treeSpecies := None;
     showCadastre := showCadastre f; dateRange := dateRange f |}.

(** The memoised query object of the hook, from the debounced view state and
    the current filters. *)
Definition geoQuery (debouncedViewState : MapViewState) (fs : MapFilters)
  : GeospatialQuery :=
  {| q_zoom := Math_round (zoom debouncedViewState);
     bbox := Some ((longitude debouncedViewState - 0.5)%float,
                   (latitude debouncedViewState - 0.5)%float,
                   (longitude debouncedViewState + 0.5)%float,
                   (latitude debouncedViewState + 0.5)%float);
     filters := Some (withoutTreeSpecies fs);
     limit := Some 100%float;
     page := None |}.

(** A query key of the fetch-caching library: the two tags and the query
    object.  The library hashes a key structurally, so equal keys name the
    same cache entry. *)
Record QueryKey := {
  key_scope : string;
  key_layer : string;
  key_query : GeospatialQuery;
}.

(** [['geoLayers', 'forest', {...geoQuery, filters: {...geoQuery.filters,
    treeSpecies: undefined}}]].  The hook's query always carries a filter
    object; a query without one keeps none here. *)
Definition forestQueryKey (q : GeospatialQuery) : QueryKey :=
  {| key_scope := "geoLayers";
     key_layer := "forest";
     key_query := {| bbox := bbox q; q_zoom := q_zoom q;
                     filters := withoutTreeSpecies <$> filters q;
                     limit := limit q; page := page q |} |}.

Definition cadastreQueryKey (q : GeospatialQuery) : QueryKey :=
  {| key_scope := "geoLayers"; key_layer := "cadastre"; key_query := q |}.

(** [enabled] of the cadastre query. *)
Definition cadastreEnabled (enabled : bool) (fs : MapFilters) (viewState : MapViewState)
  : bool :=
  enabled && showCadastre fs && (14 <=? zoom viewState)%float.

(** The client-side species filter over the fetched forest layers. *)
Definition filteredForestLayers (forestLayers : list ForestLayer) (fs : MapFilters)
  : list ForestLayer :=
  if js_no_length (treeSpecies fs) then forestLayers
  else List.filter
         (fun layer => js_includes (treeSpecies fs) (js_or (fl_species layer) ""))
         forestLayers.

(* ================================================================= *)
(** ** [src/hooks/useMapsPage.ts] *)

(** The default [Array.prototype.sort] on strings: ascending code units. *)
Definition str_le (a b : string) : Prop := String.leb a b = true.

Global Instance str_le_dec : RelDecision str_le.
Proof. intros a b. unfold str_le. apply _. Defined.

Definition js_sort (l : list string) : list string := merge_sort str_le l.

(** The memoised [forestLayers] of the page: every fetched layer, its
    [visible] flag read from the set of visible ids. *)
Definition forestLayersWithVisibility (fetchedForestLayers : list ForestLayer)
    (visibleLayerIds : gset string) : list ForestLayer :=
  (fun layer =>
     {| fl_id := fl_id layer; fl_name := fl_name layer; fl_type := fl_type layer;
        fl_visible := bool_decide (fl_id layer ∈ visibleLayerIds);
        fl_opacity := fl_opacity layer; fl_species := fl_species layer;
        fl_geoData := fl_geoData layer |}) <$> fetchedForestLayers.

(** The state update of the effect that runs when the fetched layers change.
    [JSON.stringify] is injective on arrays of strings, so its two texts are
    compared through the sorted arrays themselves. *)
Definition syncVisibleLayerIds (fetchedForestLayers : list ForestLayer)
    (prev : gset string) : gset string :=
  let fetchedIds : gset string := list_to_set (fl_id <$> fetchedForestLayers) in
  let fetchedIdsString := js_sort (elements fetchedIds) in
  let prevIdsString := js_sort (elements prev) in
  if decide (prevIdsString = fetchedIdsString) then prev
  else
    let newSet :=
      foldl (fun (s : gset string) layer =>
               if decide (fl_id layer ∈ s) then s else s ∪ {[fl_id layer]})
            prev fetchedForestLayers in
    filter (fun id => id ∈ fetchedIds) newSet.

Definition toggleLayer (layerId : string) (prev : gset string) : gset string :=
  if decide (layerId ∈ prev) then prev ∖ {[layerId]} else prev ∪ {[layerId]}.

Definition loadInitialLayers (fetchedForestLayers : list ForestLayer) : gset string :=
  list_to_set (fl_id <$> fetchedForestLayers).

(* ================================================================= *)
(** ** [src/services/geoService.ts]: species id normalisation *)

(** Strings are sequences of code units; the code units of [Stdlib]'s
    [string] are U+0000..U+00FF, on which the functions below are the
    ECMAScript ones. *)

Definition code_between (lo hi : N) (c : ascii) : bool :=
  ((lo <=? N_of_ascii c) && (N_of_ascii c <=? hi))%N.

(** [toLowerCase] on one code unit: A-Z, and the Latin-1 capitals U+00C0 to
    U+00DE without the multiplication sign U+00D7. *)
Definition lower_char (c : ascii) : ascii :=
  if code_between 65 90 c
     || (code_between 192 222 c && negb (N_of_ascii c =? 215)%N)
  then ascii_of_N (N_of_ascii c + 32)
  else c.

(** The class [\s]: tab, line feed, vertical tab, form feed, carriage
    return, space and the no-break space. *)
Definition is_space (c : ascii) : bool :=
  code_between 9 13 c || (N_of_ascii c =? 32)%N || (N_of_ascii c =? 160)%N.

Definition is_underscore (c : ascii) : bool := (N_of_ascii c =? 95)%N.

(** The class [[a-z0-9_]]. *)
Definition is_id_char (c : ascii) : bool :=
  code_between 97 122 c || code_between 48 57 c || is_underscore c.

Definition starts_with (p : ascii -> bool) (s : string) : bool :=
  match s with
  | String c _ => p c
  | EmptyString => false
  end.

Fixpoint toLowerCase (s : string) : string :=
  match s with
  | EmptyString => EmptyString
  | String c s' => String (lower_char c) (toLowerCase s')
  end.

(** [s.replace(/C+/g, '_')] for a character class [C]: every maximal run of
    characters of the class becomes one underscore (written when the run
    ends). *)
Fixpoint replace_runs (p : ascii -> bool) (s : string) : string :=
  match s with
  | EmptyString => EmptyString
  | String c s' =>
      if p c then
        if starts_with p s' then replace_runs p s'
        else String "_" (replace_runs p s')
      else String c (replace_runs p s')
  end.

(** [s.replace(/[^C]/g, '')]: keep the characters of the class. *)
Fixpoint keep_chars (p : ascii -> bool) (s : string) : string :=
  match s with
  | EmptyString => EmptyString
  | String c s' => if p c then String c (keep_chars p s') else keep_chars p s'
  end.

Definition strip_first_underscore (s : string) : string :=
  match s with
  | String c s' => if is_underscore c then s' else s
  | EmptyString => EmptyString
  end.

Fixpoint strip_last_underscore (s : string) : string :=
  match s with
  | EmptyString => EmptyString
  | String c EmptyString => if is_underscore c then EmptyString else s
  | String c s' => String c (strip_last_underscore s')
  end.

(** [s.replace(/^_|_$/g, '')]: the scan removes an underscore at index 0,
    goes on behind it and removes an underscore that is the last character. *)
Definition trim_underscores (s : string) : string :=
  strip_last_underscore (strip_first_underscore s).

Definition normalizeSpeciesToId (speciesName : string) : string :=
  trim_underscores
    (replace_runs is_underscore
       (keep_chars is_id_char
          (replace_runs is_space
             (toLowerCase speciesName)))).

(* ================================================================= *)
(** ** [src/services/api.ts] and the forest fetch *)

Record AxiosConfig := {
  method : string;
  url : string;
  params : list (string * string);
  headers : list (string * string);
}.

(** [addAuthHeader(config)]: the token is the one kept in local storage. *)
Definition addAuthHeader (config : AxiosConfig) (authToken : option string) : AxiosConfig :=
  match authToken with
  | Some t =>
      if decide (t = "") then config
      else {| method := method config; url := url config; params := params config;
              headers := headers config ++ [("Authorization", "Bearer " +:+ t)] |}
  | None => config
  end.

(** The body of an answer of [GET /geo/forest]; [body_features] is [None]
    when the key is not there (or holds [null]). *)
Record ForestBody := {
  body_type : string;
  body_features : option (list (Feature ForestProps));
}.

Record AxiosResponse (D : Type) := { data : D }.
Arguments data {D} _.

Definition emptyFeatureCollection {P : Type} : FeatureCollection P :=
  {| fc_type := "FeatureCollection"; features := [] |}.

(** [query.filters?.treeSpecies?.[0]] *)
Definition firstTreeSpecies (query : GeospatialQuery) : option string :=
  match filters query with
  | Some f =>
      match treeSpecies f with
      | Some (s :: _) => Some s
      | _ => None
      end
  | None => None
  end.

Definition forestRequest (query : GeospatialQuery) : AxiosConfig :=
  let species := firstTreeSpecies query in
  let params :=
    match species with
    | Some s => if decide (s = "") then [] else [("species", s)]
    | None => []
    end in
  {| method := "GET"; url := "/geo/forest"; params := params; headers := [] |}.

(* ================================================================= *)
(** ** Layer assembly *)

(** [Map<string, Feature[]>], in insertion order. *)
Definition SpeciesMap : Type := list (string * list (Feature ForestProps)).

Definition map_has (k : string) (m : SpeciesMap) : bool := bool_decide (k ∈ m.*1).

(** [m.set(k, v)]: a present key keeps its place, a new one goes last. *)
Definition map_set (k : string) (v : list (Feature ForestProps)) (m : SpeciesMap)
  : SpeciesMap :=
  if map_has k m
  then (fun e : string * list (Feature ForestProps) =>
          if decide (e.1 = k) then (k, v) else e) <$> m
  else m ++ [(k, v)].

(** [m.get(k)?.push(feature)]: the array stored under [k] grows in place. *)
Definition map_push (k : string) (feature : Feature ForestProps) (m : SpeciesMap)
  : SpeciesMap :=
  (fun e : string * list (Feature ForestProps) =>
     if decide (e.1 = k) then (e.1, e.2 ++ [feature]) else e) <$> m.

(** [feature.properties?.species || 'unknown'] *)
Definition speciesNameOf (feature : Feature ForestProps) : string :=
  js_or (match properties feature with Some p => species p | None => None end)
        "unknown".

(** The body of the [forEach] that fills the map. *)
Definition groupFeature (layersBySpecies : SpeciesMap) (feature : Feature ForestProps)
  : SpeciesMap :=
  let speciesName := speciesNameOf feature in
  let m := if map_has speciesName layersBySpecies then layersBySpecies
           else map_set speciesName [] layersBySpecies in
  map_push speciesName feature m.

Definition layersBySpecies (fs : list (Feature ForestProps)) : SpeciesMap :=
  foldl groupFeature [] fs.

(** The body of the loop over [layersBySpecies.entries()]. *)
Definition forestLayerOf (entry : string * list (Feature ForestProps)) : ForestLayer :=
  let speciesName := entry.1 in
  let firstFeature := head entry.2 in
  let commonName :=
    js_or (match firstFeature with
           | Some f => match properties f with Some p => commonName p | None => None end
           | None => None
           end) speciesName in
  let speciesId := normalizeSpeciesToId speciesName in
  let layerId := "forest-" +:+ speciesId in
  {| fl_id := layerId;
     fl_name := commonName;
     fl_type := forest;
     fl_visible := true;
     fl_opacity := 0.7%float;
     fl_species := Some speciesId;
     fl_geoData := {| fc_type := "FeatureCollection"; features := entry.2 |} |}.

(** What [getForestLayers] builds from the fetched collection. *)
Definition forestLayersOf (forestData : FeatureCollection ForestProps)
  : list ForestLayer :=
  forestLayerOf <$> layersBySpecies (features forestData).

Definition parcelFeature (p : CadastreParcel) : Feature CadastreProps :=
  {| properties := Some {| cp_id := parcel_id p;
                           cp_type := "cadastre";
                           parcelNumber := reference p;
                           cp_area := area p;
                           cp_landUse := landUse p;
                           cp_owner := owner p |};
     geometry := GeoPolygon (parcel_geometry p) |}.

(** What [getCadastreLayers] builds from the fetched parcels. *)
Definition cadastreLayersOf (query : GeospatialQuery) (cadastreData : list CadastreParcel)
  : list CadastreLayer :=
  let features := parcelFeature <$> cadastreData in
  if decide (length features = 0) then []
  else [ {| cl_id := "cadastre-parcels";
            cl_name := "Cadastral parcels";
            cl_visible := true;
            cl_opacity := 0.4%float;
            cl_commune := match filters query with Some f => commune f | None => None end;
            cl_geoData := {| fc_type := "FeatureCollection"; features := features |} |} ].

Definition getMockCadastreData (query : GeospatialQuery) : list CadastreParcel :=
  [ {| parcel_id := "parcel_1";
       reference := "AB0123";
       parcel_geometry :=
         {| coordinates :=
              [[ [2.31; 46.31]; [2.32; 46.32]; [2.33; 46.31]; [2.32; 46.30];
                 [2.31; 46.31] ]]%float |};
       area := 2.5%float;
       owner := None;
       landUse := "For" +:+ String (ascii_of_N 234) "t" |} ].   (* U+00EA *)

Definition getCadastreData (query : GeospatialQuery) : Completion (list CadastreParcel) :=
  try_catch (mret (getMockCadastreData query)) (fun _ => mret []).

Definition getCadastreLayers (query : GeospatialQuery) : Completion (list CadastreLayer) :=
  try_catch
    (cadastreData ← getCadastreData query;
     mret (cadastreLayersOf query cadastreData))
    (fun _ => mret []).

Section GeoService.
(** The HTTP client and the stored token are the service's environment. *)
Variable apiClient : AxiosConfig -> Completion (AxiosResponse (option ForestBody)).
Variable authToken : option string.

Definition getForestData (query : GeospatialQuery)
  : Completion (FeatureCollection ForestProps) :=
  try_catch
    (let config := addAuthHeader (forestRequest query) authToken in
     response ← apiClient config;
     match data response with
     | Some body =>
         match body_features body with
         | Some fs => mret {| fc_type := body_type body; features := fs |}
         | None => Throw (PlainError "Invalid response from forest API")
         end
     | None => Throw (PlainError "Invalid response from forest API")
     end)
    (fun _ => mret emptyFeatureCollection).

Definition getForestLayers (query : GeospatialQuery) : Completion (list ForestLayer) :=
  try_catch
    (forestData ← getForestData query;
     mret (forestLayersOf forestData))
    (fun _ => mret []).
End GeoService.

(* ================================================================= *)
(** ** [src/services/authService.ts] *)

Record User := {
  user_id : string;
  user_email : string;
  user_name : option string;
  avatar : option string;
  createdAt : string;
  updatedAt : string;
}.

Record RegisterCredentials := {
  rc_name : string;
  rc_email : string;
  rc_password : string;
}.

Record RegisterResponse := {
  user : User;
  message : string;
}.

(** A request of [apiClient.post(url, body)]; the body is a flat JSON object
    of string fields, in the order the object literal lists them. *)
Record PostRequest := {
  post_url : string;
  post_body : list (string * string);
}.

(** [a || b] on two optional strings. *)
Definition js_or_opt (a b : option string) : option string :=
  match a with
  | Some s => if decide (s = "") then b else Some s
  | None => b
  end.

(** [a || b] on two values of unknown type. *)
Definition js_or_any (a b : option JsAny) : option JsAny :=
  match a with
  | Some v => if js_truthy v then Some v else b
  | None => b
  end.

(** The message of [new Error(m || d)]: the string [m] converts to when it is
    truthy, the text [d] otherwise. *)
Definition js_error_text (m : option JsAny) (d : string) : string :=
  match m with
  | Some v => if js_truthy v then js_toString v else d
  | None => d
  end.

Definition handleAuthError (error : JsError) : JsError :=
  match error with
  | ResponseError r =>
      let message := js_or_any (er_message r) (er_error r) in
      if decide (er_status r = 400%Z)
      then PlainError (js_error_text message "Invalid input data")
      else if decide (er_status r = 401%Z) then PlainError "Invalid credentials"
      else if decide (er_status r = 409%Z) then PlainError "Email is already registered"
      else PlainError (js_error_text message "Server error")
  | RequestError =>
      PlainError "Connection error. Please check your internet connection."
  | PlainError m => PlainError (js_or (Some m) "Unexpected error")
  end.

(** The request [register] hands to [apiClient.post]. *)
Definition registerRequest (credentials : RegisterCredentials) : PostRequest :=
  {| post_url := "/auth/register";
     post_body := [ ("email", rc_email credentials);
                    ("password", rc_password credentials) ] |}.

Section AuthService.
Variable apiClient_post : PostRequest -> Completion (AxiosResponse RegisterResponse).

Definition register (credentials : RegisterCredentials) : Completion RegisterResponse :=
  try_catch
    (response ← apiClient_post (registerRequest credentials);
     mret (data response))
    (fun error => Throw (handleAuthError error)).
End AuthService.

(* ================================================================= *)
(** ** Reference definitions for the grouping *)

(** First-encounter order: the distinct elements of a list, each at the
    place of its first occurrence. *)
Fixpoint first_occurrences (l : list string) : list string :=
  match l with
  | [] => []
  | x :: l' => x :: filter (fun y => y ≠ x) (first_occurrences l')
  end.

(** The features of one species bucket, in the order of the input. *)
Definition featuresOfSpecies (k : string) (fs : list (Feature ForestProps))
  : list (Feature ForestProps) :=
  filter (fun f => speciesNameOf f = k) fs.

(** One bucket per distinct species value, in first-encounter order. *)
Definition speciesBuckets (fs : list (Feature ForestProps)) : SpeciesMap :=
  (fun k => (k, featuresOfSpecies k fs)) <$> first_occurrences (speciesNameOf <$> fs).

(* ================================================================= *)
(** ** Shape of a normalised species id *)

Fixpoint all_chars (p : ascii -> bool) (s : string) : bool :=
  match s with
  | EmptyString => true
  | String c s' => p c && all_chars p s'
  end.

(** No two neighbouring characters are both of the class. *)
Fixpoint no_adjacent (p : ascii -> bool) (s : string) : bool :=
  match s with
  | EmptyString => true
  | String c s' => negb (p c && starts_with p s') && no_adjacent p s'
  end.

Fixpoint ends_with (p : ascii -> bool) (s : string) : bool :=
  match s with
  | EmptyString => false
  | String c EmptyString => p c
  | String _ s' => ends_with p s'
  end.

(** Only [[a-z0-9_]], no doubled underscore, none at either end. *)
Definition is_species_id (s : string) : bool :=
  all_chars is_id_char s
  && no_adjacent is_underscore s
  && negb (starts_with is_underscore s)
  && negb (ends_with is_underscore s).

(* ================================================================= *)
(** ** Example data *)

(** The page's initial view state ([useMapsPage]). *)
Definition initialViewState : MapViewState :=
  {| latitude := 46.2276; longitude := 2.2137; zoom := 6; bearing := 0; pitch := 0 |}.

Definition forestFeature (id : string) (sp : option string) : Feature ForestProps :=
  {| properties := Some {| fp_id := Some id; species := sp; commonName := None |};
     geometry := GeoOther "Polygon" |}.

Definition exampleLayer (id : string) (sp : option string) : ForestLayer :=
  {| fl_id := id; fl_name := id; fl_type := forest; fl_visible := true;
     fl_opacity := 0.7%float; fl_species := sp;
     fl_geoData := emptyFeatureCollection |}.

(** [{...fs, treeSpecies: sel}]: the filters after a change of the species
    selection. *)
Definition withTreeSpecies (sel : option (list string)) (f : MapFilters) : MapFilters :=
  {| region := region f; department := department f; commune := commune f;
     treeSpecies := sel;
     showCadastre := showCadastre f; dateRange := dateRange f |}.

(* ================================================================= *)
(** ** [src/hooks/useMapsPage.ts]: filters and selection *)

(** The part of the page's state that the selection handlers touch. *)
Record PageState := {
  ps_filters : MapFilters;
  selectedRegion : string;
  selectedDepartment : string;
  selectedCommune : string;
}.

Definition handleRegionFilter (regionId : string) (st : PageState) : PageState :=
  {| ps_filters :=
       {| region := Some regionId; department := None; commune := None;
          treeSpecies := treeSpecies (ps_filters st);
          showCadastre := showCadastre (ps_filters st);
          dateRange := dateRange (ps_filters st) |};
     selectedRegion := regionId;
     selectedDepartment := selectedDepartment st;
     selectedCommune := selectedCommune st |}.

Definition handleDepartmentFilter (departmentId : string) (st : PageState) : PageState :=
  {| ps_filters :=
       {| region := region (ps_filters st); department := Some departmentId;
          commune := None;
          treeSpecies := treeSpecies (ps_filters st);
          showCadastre := showCadastre (ps_filters st);
          dateRange := dateRange (ps_filters st) |};
     selectedRegion := selectedRegion st;
     selectedDepartment := departmentId;
     selectedCommune := selectedCommune st |}.

Definition clearFilters (st : PageState) : PageState :=
  {| ps_filters := createDefaultFilters;
     selectedRegion := ""; selectedDepartment := ""; selectedCommune := "" |}.

(** A feature under the pointer, as the click handler reads it. *)
Record ClickProperties := { click_type : option string; click_id : string }.
Record ClickFeature := { click_properties : option ClickProperties }.

Definition handleMapClick (features : option (list ClickFeature)) (st : PageState)
  : PageState :=
  match features with
  | Some (feature :: _) =>
      match click_properties feature with
      | Some p =>
          if decide (click_type p = Some "region") then
            {| ps_filters := ps_filters st; selectedRegion := click_id p;
               selectedDepartment := selectedDepartment st;
               selectedCommune := selectedCommune st |}
          else if decide (click_type p = Some "department") then
            {| ps_filters := ps_filters st; selectedRegion := selectedRegion st;
               selectedDepartment := click_id p;
               selectedCommune := selectedCommune st |}
          else if decide (click_type p = Some "commune") then
            {| ps_filters := ps_filters st; selectedRegion := selectedRegion st;
               selectedDepartment := selectedDepartment st;
               selectedCommune := click_id p |}
          else st
      | None => st
      end
  | _ => st
  end.

(** [enabled] of the department and commune queries of [useGeoHierarchy],
    fed with [selectedRegion || undefined] and [selectedDepartment ||
    undefined]. *)
Definition departmentsEnabled (st : PageState) : bool :=
  negb (bool_decide (selectedRegion st = "")).
Definition communesEnabled (st : PageState) : bool :=
  negb (bool_decide (selectedDepartment st = "")).

(* ================================================================= *)
(** ** [src/components/organisms/LayerRenderer.tsx] *)

(** The renderer's own species filter over the layers it is given. *)
Definition rendererForestLayers (forestLayers : list ForestLayer) (fs : MapFilters)
  : list ForestLayer :=
  List.filter
    (fun layer =>
       match treeSpecies fs with
       | None | Some [] => true
       | Some sel =>
           match fl_species layer with
           | Some sp => negb (bool_decide (sp = "")) && bool_decide (sp ∈ sel)
           | None => false
           end
       end)
    forestLayers.

Definition shouldShowCadastre (fs : MapFilters) (currentZoom : float) : bool :=
  showCadastre fs && shouldShowCadastreAtZoom currentZoom.

(* ================================================================= *)
(** ** [src/lib/mapUtils.ts]: map configuration *)

Fixpoint js_startsWith (p s : string) : bool :=
  match p with
  | EmptyString => true
  | String a p' =>
      match s with
      | String b s' => if decide (a = b) then js_startsWith p' s' else false
      | EmptyString => false
      end
  end.

Definition validateMapboxToken (token : string) : string :=
  if negb (bool_decide (token = "")) && js_startsWith "pk." token then token else "".

Record MapControls := {
  navigation : bool; fullscreen : bool; geolocate : bool; scale : bool;
}.

Record MapConfig := {
  accessToken : string;
  mapStyle : option string;
  cfg_initialViewState : MapViewState;
  controls : option MapControls;
}.

(** [Partial<MapConfig>]: a field is [Some] when the object has the key. *)
Record MapConfigOverrides := {
  o_accessToken : option string;
  o_mapStyle : option (option string);
  o_initialViewState : option MapViewState;
  o_controls : option (option MapControls);
}.

Definition chr (n : N) : string := String (ascii_of_N n) EmptyString.

Definition msg_token_missing : string :=
  "NEXT_PUBLIC_MAPBOX_ACCESS_TOKEN no est" +:+ chr 225 +:+ " configurado. "
  +:+ "Por favor a" +:+ chr 241 +:+ chr 225 +:+ "delo a tu archivo .env.local".

Definition msg_token_invalid : string :=
  "Token de Mapbox inv" +:+ chr 225 +:+ "lido. Debe empezar con " +:+ chr 34
  +:+ "pk." +:+ chr 34 +:+ " y ser un token real. "
  +:+ "Obt" +:+ chr 233 +:+ "n uno gratuito en: https://account.mapbox.com/access-tokens/".

Definition MAP_STYLES_STREETS : string := "mapbox://styles/mapbox/streets-v12".

Section MapConfiguration.
(** The environment: the configured token and the default view (both read
    from [process.env]). *)
Variable env_accessToken : option string.
Variable FRANCE_DEFAULT_VIEW : MapViewState.

Definition createMapConfig (overrides : option MapConfigOverrides) : Completion MapConfig :=
  match env_accessToken with
  | None => Throw (PlainError msg_token_missing)
  | Some token =>
      if bool_decide (token = "") then Throw (PlainError msg_token_missing)
      else if bool_decide (validateMapboxToken token = "")
      then Throw (PlainError msg_token_invalid)
      else
        let base :=
          {| accessToken := token;
             mapStyle := Some MAP_STYLES_STREETS;
             cfg_initialViewState := FRANCE_DEFAULT_VIEW;
             controls := Some {| navigation := true; fullscreen := true;
                                 geolocate := true; scale := true |} |} in
        match overrides with
        | None => mret base
        | Some o =>
            mret {| accessToken := default (accessToken base) (o_accessToken o);
                    mapStyle := default (mapStyle base) (o_mapStyle o);
                    cfg_initialViewState :=
                      default (cfg_initialViewState base) (o_initialViewState o);
                    controls := default (controls base) (o_controls o) |}
        end
  end.
End MapConfiguration.

(* ================================================================= *)
(** ** [src/services/authService.ts]: login *)

Record LoginCredentials := {
  lc_email : string;
  lc_password : string;
  rememberMe : option bool;
}.

Record LoginResponse := {
  lr_accessToken : string;
  lr_refreshToken : string;
  lr_user : User;
}.

Definition loginRequest (credentials : LoginCredentials) : PostRequest :=
  {| post_url := "/auth/login";
     post_body := [ ("email", lc_email credentials);
                    ("password", lc_password credentials) ] |}.

Section AuthLogin.
Variable apiClient_post : PostRequest -> Completion (AxiosResponse LoginResponse).

Definition login (credentials : LoginCredentials) : Completion LoginResponse :=
  try_catch
    (response ← apiClient_post (loginRequest credentials);
     mret (data response))
    (fun error => Throw (handleAuthError error)).
End AuthLogin.

(* ================================================================= *)
(** ** [src/context/AuthContext.tsx] *)

Record AuthState := {
  as_user : option User;
  as_accessToken : option string;
  as_refreshToken : option string;
  isAuthenticated : bool;
  isLoading : bool;
  as_error : option string;
}.

Definition initialAuthState : AuthState :=
  {| as_user := None; as_accessToken := None; as_refreshToken := None;
     isAuthenticated := false; isLoading := true; as_error := None |}.

Inductive AuthAction :=
  | AUTH_START
  | AUTH_SUCCESS (u : User) (token : string) (refresh : option string)
  | AUTH_ERROR (payload : string)
  | AUTH_LOGOUT
  | CLEAR_ERROR
  | SET_LOADING (payload : bool).

Definition authReducer (state : AuthState) (action : AuthAction) : AuthState :=
  match action with
  | AUTH_START =>
      {| as_user := as_user state; as_accessToken := as_accessToken state;
         as_refreshToken := as_refreshToken state;
         isAuthenticated := isAuthenticated state;
         isLoading := true; as_error := None |}
  | AUTH_SUCCESS u token refresh =>
      {| as_user := Some u; as_accessToken := Some token;
         as_refreshToken := js_or_opt refresh (as_refreshToken state);
         isAuthenticated := true; isLoading := false; as_error := None |}
  | AUTH_ERROR payload =>
      {| as_user := None; as_accessToken := None; as_refreshToken := None;
         isAuthenticated := false; isLoading := false; as_error := Some payload |}
  | AUTH_LOGOUT =>
      {| as_user := None; as_accessToken := None; as_refreshToken := None;
         isAuthenticated := false; isLoading := false; as_error := None |}
  | CLEAR_ERROR =>
      {| as_user := as_user state; as_accessToken := as_accessToken state;
         as_refreshToken := as_refreshToken state;
         isAuthenticated := isAuthenticated state;
         isLoading := isLoading state; as_error := None |}
  | SET_LOADING payload =>
      {| as_user := as_user state; as_accessToken := as_accessToken state;
         as_refreshToken := as_refreshToken state;
         isAuthenticated := isAuthenticated state;
         isLoading := payload; as_error := as_error state |}
  end.

(** [error instanceof Error ? error.message : fallback].  The errors that
    reach the context are the [Error] objects of [handleAuthError]; the other
    two constructors stand for the HTTP client's errors, whose text is not
    modelled. *)
Definition errorMessage (error : JsError) (fallback : string) : string :=
  match error with
  | PlainError m => m
  | _ => fallback
  end.

Section AuthProvider.
Variable post_login : PostRequest -> Completion (AxiosResponse LoginResponse).
Variable post_register : PostRequest -> Completion (AxiosResponse RegisterResponse).

(** [login] of the provider: the state after its dispatches and the boolean
    it resolves to (what it writes to local storage is left out). *)
Definition contextLogin (credentials : LoginCredentials) (state : AuthState)
  : AuthState * bool :=
  let started := authReducer state AUTH_START in
  match login post_login credentials with
  | Normal result =>
      (authReducer started
         (AUTH_SUCCESS (lr_user result) (lr_accessToken result)
            (Some (lr_refreshToken result))),
       true)
  | Throw error =>
      (authReducer started
         (AUTH_ERROR (errorMessage error ("Error de autenticaci" +:+ chr 243 +:+ "n"))),
       false)
  end.

Definition contextRegister (credentials : RegisterCredentials) (state : AuthState)
  : AuthState * bool :=
  let started := authReducer state AUTH_START in
  match register post_register credentials with
  | Normal _ =>
      contextLogin {| lc_email := rc_email credentials;
                      lc_password := rc_password credentials;
                      rememberMe := Some false |} started
  | Throw error =>
      (authReducer started (AUTH_ERROR (errorMessage error "Error de registro")), false)
  end.
End AuthProvider.

(** [refreshAuth]: the session kept in local storage is taken over when both
    the token and the user are there. *)
Definition refreshAuth (storedToken : option string) (storedUser : option User)
    (storedRefreshToken : option string) (state : AuthState) : AuthState :=
  match storedToken, storedUser with
  | Some token, Some u =>
      if bool_decide (token = "") then authReducer state (SET_LOADING false)
      else authReducer state
             (AUTH_SUCCESS u token (js_or_opt storedRefreshToken None))
  | _, _ => authReducer state (SET_LOADING false)
  end.

(* ================================================================= *)
(** ** [src/services/geoService.ts]: administrative divisions *)

Definition GEO_API : string := "https://geo.api.gouv.fr".

(** An entry of the public API's listings. *)
Record RawDivision := { raw_code : string; raw_nom : string }.

Record FrenchLieuxDit := {
  ld_id : string; ld_name : string; ld_communeId : string; ld_geometry : Geometry;
}.

Record FrenchCommune := {
  commune_id : string;
  commune_name : string;
  commune_code : string;
  departmentId : string;
  lieuxDits : list FrenchLieuxDit;
}.

Record FrenchDepartment := {
  department_id : string;
  department_name : string;
  department_code : string;
  regionId : string;
  communes : list FrenchCommune;
}.

Record FrenchRegion := {
  region_id : string;
  region_name : string;
  region_code : string;
  departments : list FrenchDepartment;
}.

Definition getMockRegions : list FrenchRegion :=
  [ {| region_id := "75"; region_name := "Nouvelle-Aquitaine"; region_code := "75";
       departments := [] |};
    {| region_id := "76"; region_name := "Occitanie"; region_code := "76";
       departments := [] |};
    {| region_id := "84";
       region_name := "Auvergne-Rh" +:+ chr 244 +:+ "ne-Alpes";
       region_code := "84"; departments := [] |} ].

Definition getMockCommunes (departmentCode : string) : list FrenchCommune :=
  [ {| commune_id := departmentCode +:+ "001";
       commune_name := "Commune 1 (" +:+ departmentCode +:+ ")";
       commune_code := departmentCode +:+ "001";
       departmentId := departmentCode;
       lieuxDits := [] |};
    {| commune_id := departmentCode +:+ "002";
       commune_name := "Commune 2 (" +:+ departmentCode +:+ ")";
       commune_code := departmentCode +:+ "002";
       departmentId := departmentCode;
       lieuxDits := [] |} ].

Section GeoApi.
(** [fetch(url)] followed by [response.json()] and the use of the answer as
    an array of entries: a network failure, a body that is no JSON and an
    answer that is no array all end in the [catch] block and are [Throw]. *)
Variable fetchJson : string -> Completion (list RawDivision).

Definition getRegions : Completion (list FrenchRegion) :=
  try_catch
    (regions ← fetchJson (GEO_API +:+ "/regions");
     mret ((fun r => {| region_id := raw_code r; region_name := raw_nom r;
                        region_code := raw_code r; departments := [] |})
             <$> (regions : list RawDivision)))
    (fun _ => mret getMockRegions).

Definition getCommunes (departmentCode : string) : Completion (list FrenchCommune) :=
  try_catch
    (cs ← fetchJson (GEO_API +:+ "/departements/" +:+ departmentCode +:+ "/communes");
     mret ((fun c => {| commune_id := raw_code c; commune_name := raw_nom c;
                        commune_code := raw_code c;
                        departmentId := departmentCode; lieuxDits := [] |})
             <$> (cs : list RawDivision)))
    (fun _ => mret (getMockCommunes departmentCode)).
End GeoApi.

(* ================================================================= *)
(** ** [src/hooks/useDebounce.ts] *)

(** The hook's state between events: its argument at the last render, the
    value it returns, and the pending timer with its due time and the value
    its callback will set.  Times are milliseconds; equality on [T] stands
    for [Object.is], by which the effect's dependencies are compared. *)
Record DebounceState (T : Type) := {
  db_value : T;
  debouncedValue : T;
  handler : option (Z * T);
}.
Arguments db_value {T} _.
Arguments debouncedValue {T} _.
Arguments handler {T} _.

(** First render: the state starts at the value, and the effect arms a timer. *)
Definition debounce_mount {T : Type} (delay now : Z) (value : T) : DebounceState T :=
  {| db_value := value; debouncedValue := value;
     handler := Some ((now + delay)%Z, value) |}.

(** Time passes up to [now]: a timer that is due runs its callback. *)
Definition debounce_advance {T : Type} (now : Z) (st : DebounceState T)
  : DebounceState T :=
  match handler st with
  | Some (due, v) =>
      if decide (due ≤ now)%Z
      then {| db_value := db_value st; debouncedValue := v; handler := None |}
      else st
  | None => st
  end.

(** A render with the argument [event.2] at time [event.1].  The effect
    depends on the value (and the delay, which is fixed here): with the value
    of the last render nothing happens and a pending timer stays; with another
    value the effect's cleanup clears the pending timer and the effect arms a
    new one. *)
Definition debounce_change {T : Type} `{EqDecision T} (delay : Z)
    (st : DebounceState T) (event : Z * T) : DebounceState T :=
  let st' := debounce_advance event.1 st in
  if decide (event.2 = db_value st') then st'
  else {| db_value := event.2;
          debouncedValue := debouncedValue st';
          handler := Some ((event.1 + delay)%Z, event.2) |}.

Definition debounce_run {T : Type} `{EqDecision T} (delay : Z) (st : DebounceState T)
    (events : list (Z * T)) : DebounceState T :=
  foldl (debounce_change delay) st events.

(** Every render comes before the pending timer is due, where a render with
    a new value moves the due time to [delay] after it. *)
Fixpoint within_burst {T : Type} `{EqDecision T} (delay due : Z) (current : T)
    (events : list (Z * T)) : bool :=
  match events with
  | [] => true
  | e :: es =>
      bool_decide (e.1 < due)%Z
      && (if decide (e.2 = current) then within_burst delay due current es
          else within_burst delay (e.1 + delay)%Z e.2 es)
  end.

(** The due time of the timer that is pending after such a burst: [delay]
    after the last render that changed the value. *)
Fixpoint burst_due {T : Type} `{EqDecision T} (delay due : Z) (current : T)
    (events : list (Z * T)) : Z :=
  match events with
  | [] => due
  | e :: es =>
      if decide (e.2 = current) then burst_due delay due current es
      else burst_due delay (e.1 + delay)%Z e.2 es
  end.

(* ================================================================= *)
(** ** Record updates used in the statements *)

(** [{...layer, visible: b}] *)
Definition setVisible (b : bool) (layer : ForestLayer) : ForestLayer :=
  {| fl_id := fl_id layer; fl_name := fl_name layer; fl_type := fl_type layer;
     fl_visible := b;
     fl_opacity := fl_opacity layer; fl_species := fl_species layer;
     fl_geoData := fl_geoData layer |}.

(** [{...f, showCadastre: b}] *)
Definition withShowCadastre (b : bool) (f : MapFilters) : MapFilters :=
  {| region := region f; department := department f; commune := commune f;
     treeSpecies := treeSpecies f;
     showCadastre := b; dateRange := dateRange f |}.

(** A session state is consistent when the authenticated flag tells whether
    a user and an access token are held: with the flag set both are there and
    no error is shown, without it no user and no token is kept. *)
Definition auth_consistent (s : AuthState) : Prop :=
  (isAuthenticated s = true →
     is_Some (as_user s) ∧ is_Some (as_accessToken s) ∧ as_error s = None)
  ∧ (isAuthenticated s = false →
       as_user s = None ∧ as_accessToken s = None ∧ as_refreshToken s = None).

(** A value is text-like when, being truthy, it converts to a non-empty
    string, as every string does; a body is text-like when the two fields
    read from it are. *)
Definition text_like (v : JsAny) : Prop :=
  js_truthy v = true → js_toString v ≠ "".

Definition body_text_like (r : ErrorResponse) : Prop :=
  (∀ v, er_message r = Some v → text_like v)
  ∧ (∀ v, er_error r = Some v → text_like v).

(* ================================================================= *)
(** * Properties *)

(** ** Visible-layer set: toggling *)

Lemma elem_of_toggleLayer (x y : string) (S : gset string) :
  y ∈ toggleLayer x S ↔ (y = x ∧ x ∉ S) ∨ (y ≠ x ∧ y ∈ S).
Proof.
  unfold toggleLayer. destruct (decide (x ∈ S)) as [Hin | Hout].
  - rewrite elem_of_difference, elem_of_singleton.
    split; [intros [Hy Hne]; right; done | intros [[-> ?] | [? ?]]; done].
  - rewrite elem_of_union, elem_of_singleton.
    split.
    + intros [Hy | ->]; [right | left]; split; try done. by intros ->.
    + intros [[-> _] | [_ Hy]]; [by right | by left].
Qed.

(** C10. Toggling a layer id twice gives back the visible-id set, and one
    toggle flips the membership of that id and of no other. *)
Theorem toggleLayer_involution (S : gset string) (x : string) :
  toggleLayer x (toggleLayer x S) = S
  ∧ (x ∈ toggleLayer x S ↔ x ∉ S)
  ∧ (∀ y, y ≠ x → (y ∈ toggleLayer x S ↔ y ∈ S)).
Proof.
  split; [| split].
  - apply set_eq. intros y. rewrite !elem_of_toggleLayer.
    destruct (decide (y = x)) as [-> | Hne]; destruct (decide (x ∈ S));
      intuition congruence.
  - rewrite elem_of_toggleLayer. intuition congruence.
  - intros y Hne. rewrite elem_of_toggleLayer. intuition congruence.
Qed.

(** ** Visible-layer set: reconciliation with a fetch *)

Lemma js_sort_elements_inj (A B : gset string) :
  js_sort (elements A) = js_sort (elements B) → A = B.
Proof.
  intros Heq. apply set_eq. intros x.
  rewrite <- !elem_of_elements.
  assert (Hperm : elements A ≡ₚ elements B).
  { rewrite <- (merge_sort_Permutation str_le (elements A)).
    rewrite <- (merge_sort_Permutation str_le (elements B)).
    unfold js_sort in Heq. by rewrite Heq. }
  by rewrite Hperm.
Qed.

Lemma elem_of_add_fetched (ls : list ForestLayer) (s : gset string) (x : string) :
  x ∈ foldl (fun (s : gset string) layer =>
               if decide (fl_id layer ∈ s) then s else s ∪ {[fl_id layer]}) s ls
  ↔ x ∈ s ∨ x ∈ fl_id <$> ls.
Proof.
  revert s. induction ls as [| l ls IH]; intros s; simpl.
  - rewrite elem_of_nil. tauto.
  - rewrite IH, elem_of_cons. destruct (decide (fl_id l ∈ s)) as [Hin | Hout].
    + split; [tauto |]. intros [? | [-> | ?]]; tauto.
    + rewrite elem_of_union, elem_of_singleton. tauto.
Qed.

Lemma syncVisibleLayerIds_eq (fetched : list ForestLayer) (prev : gset string) :
  syncVisibleLayerIds fetched prev = list_to_set (fl_id <$> fetched).
Proof.
  unfold syncVisibleLayerIds.
  destruct (decide _) as [Hsame | Hdiff].
  - by apply js_sort_elements_inj.
  - apply set_eq. intros x.
    rewrite elem_of_filter, elem_of_add_fetched, elem_of_list_to_set. tauto.
Qed.

(** After the reconciliation step the visible set holds exactly the ids of
    the fetched layers: a fetched id that was not in the set is added, a
    tracked id that the fetch no longer has is removed, an id in both stays
    visible; reconciling {A,B} with layers B, C gives {B,C}. *)
Theorem syncVisibleLayerIds_reconciles (fetched : list ForestLayer) (prev : gset string) :
  (∀ id, id ∈ syncVisibleLayerIds fetched prev ↔ id ∈ fl_id <$> fetched)
  ∧ (∀ id, id ∈ fl_id <$> fetched → id ∉ prev → id ∈ syncVisibleLayerIds fetched prev)
  ∧ (∀ id, id ∈ prev → id ∉ fl_id <$> fetched → id ∉ syncVisibleLayerIds fetched prev)
  ∧ (∀ id, id ∈ prev → id ∈ fl_id <$> fetched → id ∈ syncVisibleLayerIds fetched prev)
  ∧ (∀ (a : string) (b c : ForestLayer),
       syncVisibleLayerIds [b; c] {[a; fl_id b]} = {[fl_id b; fl_id c]}).
Proof.
  assert (Hmem : ∀ id, id ∈ syncVisibleLayerIds fetched prev ↔ id ∈ fl_id <$> fetched).
  { intros id. by rewrite syncVisibleLayerIds_eq, elem_of_list_to_set. }
  repeat split; try (intros id; rewrite ?Hmem; tauto); try apply Hmem.
  intros a b c. rewrite syncVisibleLayerIds_eq. simpl.
  by rewrite (right_id_L ∅ (∪)).
Qed.

(** C3. The step means to add only the fetched ids "that aren't already
    tracked" and so to leave the user's toggles alone, but the set it tracks
    holds the visible ids only: an id the user has hidden is not in it and is
    taken for a new one.  With layers A and B fetched, the user hides B; the
    next run of the step over the same two layers shows B again. *)
Lemma syncVisibleLayerIds_shows_hidden_layer_again :
  bool_decide ("forest-b" ∈
     toggleLayer "forest-b"
       (syncVisibleLayerIds [exampleLayer "forest-a" None; exampleLayer "forest-b" None] ∅))
  = false
  ∧ bool_decide ("forest-b" ∈
       syncVisibleLayerIds [exampleLayer "forest-a" None; exampleLayer "forest-b" None]
         (toggleLayer "forest-b"
            (syncVisibleLayerIds
               [exampleLayer "forest-a" None; exampleLayer "forest-b" None] ∅)))
    = true.
Proof. split; vm_compute; reflexivity. Qed.

(** ** Client-side species filter *)

Lemma js_or_empty (a : option string) : js_or a "" = default "" a.
Proof. destruct a as [s |]; simpl; [| done]. by destruct (decide (s = "")) as [-> |]. Qed.

Lemma elem_of_List_filter {A : Type} (p : A → bool) (l : list A) (x : A) :
  x ∈ List.filter p l ↔ x ∈ l ∧ p x = true.
Proof. rewrite !list_elem_of_In. apply filter_In. Qed.

(** C6. With no species selected (the selection is absent or empty) the filter
    returns the layers as they are; with a non-empty selection it keeps, in
    order, exactly the layers whose species id is in the selection (a layer
    without a species id is looked up as the empty string). *)
Theorem filteredForestLayers_spec (layers : list ForestLayer) (fs : MapFilters) :
  filteredForestLayers layers (withTreeSpecies None fs) = layers
  ∧ filteredForestLayers layers (withTreeSpecies (Some []) fs) = layers
  ∧ (∀ (s : string) (sel : list string),
       filteredForestLayers layers (withTreeSpecies (Some (s :: sel)) fs)
       = List.filter (fun l => bool_decide (default "" (fl_species l) ∈ s :: sel)) layers
       ∧ (∀ l, l ∈ filteredForestLayers layers (withTreeSpecies (Some (s :: sel)) fs)
               ↔ l ∈ layers ∧ default "" (fl_species l) ∈ s :: sel)
       ∧ (∀ l id, fl_species l = Some id →
               (l ∈ filteredForestLayers layers (withTreeSpecies (Some (s :: sel)) fs)
                ↔ l ∈ layers ∧ id ∈ s :: sel)))
  ∧ filteredForestLayers
      [ exampleLayer "forest-quercus_robur" (Some "quercus_robur");
        exampleLayer "forest-fagus_sylvatica" (Some "fagus_sylvatica");
        exampleLayer "forest-abies_alba" (Some "abies_alba") ]
      (withTreeSpecies (Some ["quercus_robur"]) fs)
    = [ exampleLayer "forest-quercus_robur" (Some "quercus_robur") ].
Proof.
  split; [done | split; [done | split; [| done]]].
  intros s sel.
  assert (Heq : filteredForestLayers layers (withTreeSpecies (Some (s :: sel)) fs)
                = List.filter (fun l => bool_decide (default "" (fl_species l) ∈ s :: sel))
                    layers).
  { unfold filteredForestLayers; simpl.
    apply filter_ext. intros l. by rewrite js_or_empty. }
  split; [exact Heq |].
  assert (Hmem : ∀ l, l ∈ filteredForestLayers layers (withTreeSpecies (Some (s :: sel)) fs)
                      ↔ l ∈ layers ∧ default "" (fl_species l) ∈ s :: sel).
  { intros l. rewrite Heq, elem_of_List_filter, bool_decide_eq_true. done. }
  split; [exact Hmem |].
  intros l id Hid. rewrite Hmem, Hid. done.
Qed.

(** ** Cadastre layer assembly *)

(** C7. No parcel gives no layer at all; one parcel or more give exactly one
    layer, with id "cadastre-parcels" and opacity 0.4, whose collection has one
    feature per parcel, in order, each carrying the parcel's id, the type
    "cadastre", the parcel number, area, land use and owner, and its polygon. *)
Theorem cadastreLayersOf_spec (query : GeospatialQuery) :
  cadastreLayersOf query [] = []
  ∧ (∀ (p : CadastreParcel) (ps : list CadastreParcel),
       ∃ layer,
         cadastreLayersOf query (p :: ps) = [layer]
         ∧ cl_id layer = "cadastre-parcels"
         ∧ cl_opacity layer = 0.4%float
         ∧ features (cl_geoData layer) = parcelFeature <$> (p :: ps)
         ∧ length (features (cl_geoData layer)) = length (p :: ps))
  ∧ (∀ p : CadastreParcel,
       properties (parcelFeature p)
       = Some {| cp_id := parcel_id p; cp_type := "cadastre";
                 parcelNumber := reference p; cp_area := area p;
                 cp_landUse := landUse p; cp_owner := owner p |}
       ∧ geometry (parcelFeature p) = GeoPolygon (parcel_geometry p))
  ∧ getCadastreLayers query = Normal (cadastreLayersOf query (getMockCadastreData query)).
Proof.
  split; [done | split; [| split; [done | done]]].
  intros p ps. eexists. split; [reflexivity |]. simpl.
  repeat split. by rewrite length_fmap.
Qed.

(** ** Query builder *)

Lemma geoQuery_filters_only (vs : MapViewState) (f1 f2 : MapFilters) :
  withoutTreeSpecies f1 = withoutTreeSpecies f2 → geoQuery vs f1 = geoQuery vs f2.
Proof. intros Heq. unfold geoQuery. by rewrite Heq. Qed.

(** C2. The query built for the forest fetch carries no species filter, and
    neither does its cache key; two filter states that differ only in the
    selected species give the same query, the same cache key and the same
    request (one without a species parameter), so that a change of the
    selection leaves the key of the forest query as it was. *)
Theorem forest_query_ignores_species
    (vs : MapViewState) (fs : MapFilters) (sel : option (list string)) :
  (∃ f, filters (geoQuery vs fs) = Some f ∧ treeSpecies f = None)
  ∧ (∃ f, filters (key_query (forestQueryKey (geoQuery vs fs))) = Some f
          ∧ treeSpecies f = None)
  ∧ geoQuery vs (withTreeSpecies sel fs) = geoQuery vs fs
  ∧ forestQueryKey (geoQuery vs (withTreeSpecies sel fs))
    = forestQueryKey (geoQuery vs fs)
  ∧ (∀ f2, withoutTreeSpecies f2 = withoutTreeSpecies fs →
           geoQuery vs f2 = geoQuery vs fs
           ∧ forestQueryKey (geoQuery vs f2) = forestQueryKey (geoQuery vs fs))
  ∧ firstTreeSpecies (geoQuery vs fs) = None
  ∧ params (forestRequest (geoQuery vs fs)) = []
  ∧ (∀ apiClient authToken,
       getForestData apiClient authToken (geoQuery vs (withTreeSpecies sel fs))
       = getForestData apiClient authToken (geoQuery vs fs)
       ∧ getForestLayers apiClient authToken (geoQuery vs (withTreeSpecies sel fs))
         = getForestLayers apiClient authToken (geoQuery vs fs)).
Proof.
  assert (Hq : geoQuery vs (withTreeSpecies sel fs) = geoQuery vs fs)
    by (by apply geoQuery_filters_only).
  split_and!.
  - by eexists.
  - by eexists.
  - exact Hq.
  - by rewrite Hq.
  - intros f2 Hf2. pose proof (geoQuery_filters_only vs f2 fs Hf2) as H2.
    split; [exact H2 | by rewrite H2].
  - done.
  - done.
  - intros apiClient authToken. by rewrite Hq.
Qed.

(** C1 (amended). The bounding box of the query is the window of half a degree
    on each side of the view's centre, as west, south, east, north; it does
    not depend on the zoom.  The window scaled by 2^(14 - zoom), with half
    extents 0.01 and 0.015 times that factor, is what [calculateBoundingBox]
    returns. *)
Theorem geoQuery_bbox_fixed_window (vs : MapViewState) (fs : MapFilters) :
  bbox (geoQuery vs fs)
  = Some ((longitude vs - 0.5)%float, (latitude vs - 0.5)%float,
          (longitude vs + 0.5)%float, (latitude vs + 0.5)%float)
  ∧ (∀ (z b p : float) (fs' : MapFilters),
       bbox (geoQuery {| latitude := latitude vs; longitude := longitude vs;
                         zoom := z; bearing := b; pitch := p |} fs')
       = bbox (geoQuery vs fs))
  ∧ (∀ (Math_pow : float → float → float) (center : LatLng) (z : float),
       calculateBoundingBox Math_pow center z
       = ((lng center - 0.015 * Math_pow 2 (14 - z))%float,
          (lat center - 0.01 * Math_pow 2 (14 - z))%float,
          (lng center + 0.015 * Math_pow 2 (14 - z))%float,
          (lat center + 0.01 * Math_pow 2 (14 - z))%float)).
Proof. repeat split. Qed.

(** C1, the claim as stated fails: at the page's initial view (zoom 6, so a
    factor of 2^8 = 256) the query's box reaches half a degree from the centre,
    the scaled window 3.84 and 2.56 degrees; the western edges differ. *)
Lemma geoQuery_bbox_is_not_zoom_scaled :
  bbox (geoQuery initialViewState createDefaultFilters)
  = Some ((2.2137 - 0.5)%float, (46.2276 - 0.5)%float,
          (2.2137 + 0.5)%float, (46.2276 + 0.5)%float)
  ∧ (∀ Math_pow : float → float → float,
       Math_pow 2%float 8%float = 256%float →
       calculateBoundingBox Math_pow
         {| lat := latitude initialViewState; lng := longitude initialViewState |}
         (zoom initialViewState)
       = ((2.2137 - 0.015 * 256)%float, (46.2276 - 0.01 * 256)%float,
          (2.2137 + 0.015 * 256)%float, (46.2276 + 0.01 * 256)%float))
  ∧ ((2.2137 - 0.5) =? (2.2137 - 0.015 * 256))%float = false
  ∧ ((46.2276 + 0.5) =? (46.2276 + 0.01 * 256))%float = false.
Proof.
  split; [reflexivity | split; [| split; reflexivity]].
  intros Math_pow Hpow. unfold calculateBoundingBox. simpl.
  change (14 - 6)%float with 8%float. by rewrite Hpow.
Qed.

(** ** Forest fetch *)

(** The forest fetch never rejects: whatever the client does, the result is
    a feature collection. *)
Lemma getForestData_never_throws
    (apiClient : AxiosConfig → Completion (AxiosResponse (option ForestBody)))
    (authToken : option string) (query : GeospatialQuery) :
  ∃ fc, getForestData apiClient authToken query = Normal fc.
Proof.
  unfold getForestData.
  destruct (apiClient _) as [[[[ty [fs |]] |]] | e]; simpl; by eexists.
Qed.

(** C8. When the answer of the forest endpoint has no body, or a body without
    the [features] key, [getForestData] resolves to the empty feature
    collection; nothing is thrown to the caller. *)
Theorem getForestData_invalid_body
    (apiClient : AxiosConfig → Completion (AxiosResponse (option ForestBody)))
    (authToken : option string) (query : GeospatialQuery)
    (response : AxiosResponse (option ForestBody)) :
  apiClient (addAuthHeader (forestRequest query) authToken) = Normal response →
  (data response = None
   ∨ ∃ body, data response = Some body ∧ body_features body = None) →
  getForestData apiClient authToken query
  = Normal {| fc_type := "FeatureCollection"; features := [] |}.
Proof.
  intros Hresp Hbody. unfold getForestData. simpl. rewrite Hresp. simpl.
  destruct Hbody as [-> | (body & -> & ->)]; reflexivity.
Qed.

Lemma getForestData_invalid_body_witness :
  getForestData
    (fun _ => Normal {| data := Some {| body_type := "FeatureCollection";
                                        body_features := None |} |})
    (Some "token") (geoQuery initialViewState createDefaultFilters)
  = Normal {| fc_type := "FeatureCollection"; features := [] |}.
Proof.
  apply (getForestData_invalid_body _ _ _
           {| data := Some {| body_type := "FeatureCollection";
                              body_features := None |} |}).
  - reflexivity.
  - right. eexists. split; reflexivity.
Defined.

(** ** Registration *)

(** C9, what the code does: the request of [register] goes to
    "/auth/register" with the e-mail and the password of the credentials and
    nothing else; the name is not in the body, so two credentials that differ
    in the name alone send the same request.  On success the answer's data is
    returned. *)
Theorem registerRequest_omits_name (credentials : RegisterCredentials) :
  registerRequest credentials
  = {| post_url := "/auth/register";
       post_body := [ ("email", rc_email credentials);
                      ("password", rc_password credentials) ] |}
  ∧ (post_body (registerRequest credentials)).*1 = ["email"; "password"]
  ∧ (∀ name' : string,
       registerRequest {| rc_name := name'; rc_email := rc_email credentials;
                          rc_password := rc_password credentials |}
       = registerRequest credentials)
  ∧ (∀ (post : PostRequest → Completion (AxiosResponse RegisterResponse)) response,
       post (registerRequest credentials) = Normal response →
       register post credentials = Normal (data response))
  ∧ registerRequest {| rc_name := "Ada Lovelace"; rc_email := "ada@example.org";
                       rc_password := "Secret1" |}
    = {| post_url := "/auth/register";
         post_body := [ ("email", "ada@example.org"); ("password", "Secret1") ] |}.
Proof.
  split_and!; try done.
  intros post response Hpost. unfold register. by rewrite Hpost.
Qed.

(** ** Forest layer assembly *)

Example first_occurrences_example :
  first_occurrences ["b"; "a"; "b"; "c"; "a"] = ["b"; "a"; "c"].
Proof. reflexivity. Qed.

Lemma elem_of_first_occurrences (l : list string) (k : string) :
  k ∈ first_occurrences l ↔ k ∈ l.
Proof.
  induction l as [| x l IH]; simpl; [done |].
  rewrite !elem_of_cons, list_elem_of_filter, IH.
  destruct (decide (k = x)); tauto.
Qed.

Lemma NoDup_first_occurrences (l : list string) : NoDup (first_occurrences l).
Proof.
  induction l as [| x l IH]; simpl; [constructor |].
  apply NoDup_cons. split.
  - rewrite list_elem_of_filter. tauto.
  - by apply NoDup_filter.
Qed.

Lemma first_occurrences_snoc (l : list string) (k : string) :
  first_occurrences (l ++ [k])
  = first_occurrences l ++ (if decide (k ∈ l) then [] else [k]).
Proof.
  induction l as [| x l IH]; simpl; [done |].
  rewrite IH, filter_app. f_equal. f_equal.
  destruct (decide (k = x)) as [-> | Hne].
  - destruct (decide (x ∈ x :: l)) as [_ | Hout]; [| by destruct Hout; left].
    destruct (decide (x ∈ l)); [done |].
    by rewrite filter_cons_False by (by intros H; apply H).
  - destruct (decide (k ∈ l)) as [Hin | Hout].
    + by destruct (decide (k ∈ x :: l)) as [_ | Hout]; [| destruct Hout; right].
    + destruct (decide (k ∈ x :: l)) as [Hin | _].
      * apply elem_of_cons in Hin. tauto.
      * by rewrite filter_cons_True by done.
Qed.

Lemma speciesBuckets_keys (fs : list (Feature ForestProps)) :
  (speciesBuckets fs).*1 = first_occurrences (speciesNameOf <$> fs).
Proof.
  unfold speciesBuckets. rewrite <- list_fmap_compose.
  rewrite <- (list_fmap_id (first_occurrences _)) at 2.
  by apply list_fmap_ext.
Qed.

Lemma featuresOfSpecies_snoc (k : string) (fs : list (Feature ForestProps))
    (f : Feature ForestProps) :
  featuresOfSpecies k (fs ++ [f])
  = featuresOfSpecies k fs ++ (if decide (speciesNameOf f = k) then [f] else []).
Proof. unfold featuresOfSpecies. by rewrite filter_app. Qed.

Lemma featuresOfSpecies_absent (k : string) (fs : list (Feature ForestProps)) :
  k ∉ speciesNameOf <$> fs → featuresOfSpecies k fs = [].
Proof.
  intros Hout. unfold featuresOfSpecies.
  induction fs as [| f fs IH]; [done |].
  rewrite fmap_cons, not_elem_of_cons in Hout. destruct Hout as [Hne Hout].
  rewrite filter_cons_False by (by intros H; apply Hne).
  by apply IH.
Qed.

Lemma speciesBuckets_snoc (fs : list (Feature ForestProps)) (f : Feature ForestProps) :
  speciesBuckets (fs ++ [f])
  = ((fun k => (k, featuresOfSpecies k (fs ++ [f])))
       <$> first_occurrences (speciesNameOf <$> fs))
    ++ (if decide (speciesNameOf f ∈ speciesNameOf <$> fs) then []
        else [(speciesNameOf f, featuresOfSpecies (speciesNameOf f) (fs ++ [f]))]).
Proof.
  unfold speciesBuckets. rewrite fmap_app. simpl.
  rewrite first_occurrences_snoc, fmap_app.
  by destruct (decide _).
Qed.

Lemma groupFeature_speciesBuckets (fs : list (Feature ForestProps))
    (f : Feature ForestProps) :
  groupFeature (speciesBuckets fs) f = speciesBuckets (fs ++ [f]).
Proof.
  rewrite speciesBuckets_snoc.
  unfold groupFeature, map_set, map_has.
  rewrite speciesBuckets_keys.
  set (k := speciesNameOf f).
  destruct (decide (k ∈ speciesNameOf <$> fs)) as [Hin | Hout].
  - rewrite bool_decide_eq_true_2 by (by apply elem_of_first_occurrences).
    rewrite app_nil_r. unfold map_push, speciesBuckets.
    rewrite <- list_fmap_compose.
    apply Forall_fmap_ext_1, Forall_forall. intros k' _. simpl.
    rewrite featuresOfSpecies_snoc. fold k.
    destruct (decide (k' = k)) as [-> | Hne].
    + by rewrite decide_True.
    + rewrite decide_False by (by intros H; apply Hne). by rewrite app_nil_r.
  - rewrite bool_decide_eq_false_2 by (by rewrite elem_of_first_occurrences).
    unfold map_push. rewrite !fmap_app. simpl.
    rewrite decide_True by done. f_equal.
    + unfold speciesBuckets. rewrite <- list_fmap_compose.
      apply Forall_fmap_ext_1, Forall_forall. intros k' Hk'. simpl.
      rewrite elem_of_first_occurrences in Hk'.
      assert (k' ≠ k) by (by intros ->).
      rewrite decide_False by done.
      rewrite featuresOfSpecies_snoc. fold k.
      rewrite decide_False by (by intros H'; apply H). by rewrite app_nil_r.
    + rewrite featuresOfSpecies_snoc. fold k. rewrite decide_True by done.
      by rewrite featuresOfSpecies_absent.
Qed.

Lemma layersBySpecies_eq (fs : list (Feature ForestProps)) :
  layersBySpecies fs = speciesBuckets fs.
Proof.
  unfold layersBySpecies.
  induction fs as [| f fs IH] using rev_ind; [done |].
  by rewrite foldl_snoc, IH, groupFeature_speciesBuckets.
Qed.

Lemma forestLayersOf_features (forestData : FeatureCollection ForestProps) :
  (fun l => features (fl_geoData l)) <$> forestLayersOf forestData
  = (fun k => featuresOfSpecies k (features forestData))
      <$> first_occurrences (speciesNameOf <$> features forestData).
Proof.
  unfold forestLayersOf. rewrite layersBySpecies_eq. unfold speciesBuckets.
  rewrite <- !list_fmap_compose. by apply Forall_fmap_ext_1, Forall_forall.
Qed.


(** ** Species id normalisation *)

Lemma is_underscore_eq (c : ascii) : is_underscore c = true → c = "_"%char.
Proof.
  destruct c as [[] [] [] [] [] [] [] []]; vm_compute; intros H;
    first [reflexivity | discriminate H].
Qed.

Lemma lower_char_id_char (c : ascii) : is_id_char c = true → lower_char c = c.
Proof.
  destruct c as [[] [] [] [] [] [] [] []]; vm_compute; intros H;
    first [reflexivity | discriminate H].
Qed.

Lemma is_space_id_char (c : ascii) : is_id_char c = true → is_space c = false.
Proof.
  destruct c as [[] [] [] [] [] [] [] []]; vm_compute; intros H;
    first [reflexivity | discriminate H].
Qed.

Section Runs.
Context (p : ascii → bool).

Lemma all_chars_keep_chars (s : string) : all_chars p (keep_chars p s) = true.
Proof.
  induction s as [| c s IH]; simpl; [done |].
  destruct (p c) eqn:Hc; simpl; [by rewrite Hc |]; done.
Qed.

Lemma keep_chars_fixed (s : string) : all_chars p s = true → keep_chars p s = s.
Proof.
  induction s as [| c s IH]; simpl; [done |].
  intros [Hc Hs]%andb_true_iff. by rewrite Hc, IH.
Qed.

Lemma all_chars_replace_runs (q : ascii → bool) (s : string) :
  q "_"%char = true → all_chars q s = true → all_chars q (replace_runs p s) = true.
Proof.
  intros Hq. induction s as [| c s IH]; simpl; [done |].
  intros [Hc Hs]%andb_true_iff.
  destruct (p c); [destruct (starts_with p s) |]; simpl; rewrite ?Hq, ?Hc; auto.
Qed.

Lemma starts_with_replace_runs (s : string) :
  starts_with p s = false → starts_with p (replace_runs p s) = false.
Proof.
  destruct s as [| c s]; simpl; [done |].
  intros Hc. by rewrite Hc.
Qed.

Lemma no_adjacent_replace_runs (s : string) :
  no_adjacent p (replace_runs p s) = true.
Proof.
  induction s as [| c s IH]; simpl; [done |].
  destruct (p c) eqn:Hc; [destruct (starts_with p s) eqn:Hs |]; simpl.
  - exact IH.
  - by rewrite starts_with_replace_runs, andb_false_r, IH.
  - by rewrite Hc, IH.
Qed.

Lemma replace_runs_none (s : string) :
  all_chars (fun c => negb (p c)) s = true → replace_runs p s = s.
Proof.
  induction s as [| c s IH]; simpl; [done |].
  intros [Hc Hs]%andb_true_iff. apply negb_true_iff in Hc. by rewrite Hc, IH.
Qed.

Lemma no_adjacent_cons (c : ascii) (s : string) :
  no_adjacent p (String c s) = negb (p c && starts_with p s) && no_adjacent p s.
Proof. reflexivity. Qed.

Lemma starts_with_strip_last (s : string) :
  starts_with p (strip_last_underscore s) = true → starts_with p s = true.
Proof.
  destruct s as [| c [| c' s]]; simpl; [done | | done].
  by destruct (is_underscore c).
Qed.

Lemma all_chars_strip_first (s : string) :
  all_chars p s = true → all_chars p (strip_first_underscore s) = true.
Proof.
  destruct s as [| c s]; simpl; [done |].
  intros [Hc Hs]%andb_true_iff. destruct (is_underscore c); simpl; [done |].
  by rewrite Hc, Hs.
Qed.

Lemma all_chars_strip_last (s : string) :
  all_chars p s = true → all_chars p (strip_last_underscore s) = true.
Proof.
  induction s as [| c s IH]; [done |].
  intros [Hc Hs]%andb_true_iff.
  destruct s as [| c' s]; [simpl; destruct (is_underscore c); simpl; by rewrite ?Hc |].
  change (strip_last_underscore (String c (String c' s)))
    with (String c (strip_last_underscore (String c' s))).
  simpl all_chars. rewrite Hc. simpl. by apply IH.
Qed.

Lemma no_adjacent_strip_first (s : string) :
  no_adjacent p s = true → no_adjacent p (strip_first_underscore s) = true.
Proof.
  destruct s as [| c s]; simpl; [done |].
  intros [Hc Hs]%andb_true_iff. destruct (is_underscore c); simpl; [done |].
  by rewrite Hc, Hs.
Qed.

Lemma no_adjacent_strip_last (s : string) :
  no_adjacent p s = true → no_adjacent p (strip_last_underscore s) = true.
Proof.
  induction s as [| c s IH]; [done |].
  intros [Hc Hs]%andb_true_iff.
  destruct s as [| c' s]; [simpl; destruct (is_underscore c); simpl; by rewrite ?andb_false_r |].
  change (strip_last_underscore (String c (String c' s)))
    with (String c (strip_last_underscore (String c' s))).
  rewrite no_adjacent_cons, (IH Hs), andb_true_r.
  apply negb_true_iff. apply negb_true_iff in Hc.
  apply andb_false_iff in Hc as [Hc | Hc]; [by rewrite Hc |].
  destruct (starts_with p (strip_last_underscore (String c' s))) eqn:Hst;
    [| by rewrite andb_false_r].
  apply starts_with_strip_last in Hst. congruence.
Qed.
End Runs.

Lemma replace_runs_underscore_fixed (s : string) :
  no_adjacent is_underscore s = true → replace_runs is_underscore s = s.
Proof.
  induction s as [| c s IH]; simpl; [done |].
  intros [Hc Hs]%andb_true_iff. rewrite (IH Hs).
  destruct (is_underscore c) eqn:Hu; [| done].
  simpl in Hc. apply negb_true_iff in Hc. rewrite Hc.
  by rewrite (is_underscore_eq c Hu).
Qed.

Lemma starts_with_strip_first (s : string) :
  no_adjacent is_underscore s = true →
  starts_with is_underscore (strip_first_underscore s) = false.
Proof.
  destruct s as [| c s]; simpl; [done |].
  intros [Hc _]%andb_true_iff.
  destruct (is_underscore c) eqn:Hu; simpl; [| done].
  simpl in Hc. by apply negb_true_iff in Hc.
Qed.

Lemma starts_with_strip_last_false (s : string) :
  starts_with is_underscore s = false →
  starts_with is_underscore (strip_last_underscore s) = false.
Proof.
  intros Hs. destruct (starts_with _ (strip_last_underscore s)) eqn:Hst; [| done].
  apply starts_with_strip_last in Hst. congruence.
Qed.

Lemma ends_with_strip_last (s : string) :
  no_adjacent is_underscore s = true →
  ends_with is_underscore (strip_last_underscore s) = false.
Proof.
  induction s as [| c s IH]; [done |].
  rewrite no_adjacent_cons. intros [Hc Hs]%andb_true_iff.
  destruct s as [| c' s].
  - simpl. by destruct (is_underscore c) eqn:Hu; simpl; rewrite ?Hu.
  - change (strip_last_underscore (String c (String c' s)))
      with (String c (strip_last_underscore (String c' s))).
    specialize (IH Hs).
    destruct (strip_last_underscore (String c' s)) as [| d t] eqn:Hstrip.
    + destruct s as [| c'' s]; simpl in Hstrip.
      * destruct (is_underscore c') eqn:Hu'; [| discriminate Hstrip].
        simpl in Hc. rewrite Hu', andb_true_r in Hc.
        simpl. by apply negb_true_iff in Hc.
      * discriminate Hstrip.
    + exact IH.
Qed.

Lemma strip_first_fixed (s : string) :
  starts_with is_underscore s = false → strip_first_underscore s = s.
Proof. destruct s as [| c s]; simpl; [done |]. by intros ->. Qed.

Lemma strip_last_fixed (s : string) :
  ends_with is_underscore s = false → strip_last_underscore s = s.
Proof.
  induction s as [| c s IH]; [done |].
  destruct s as [| c' s]; [simpl; by intros -> |].
  intros Hs.
  change (strip_last_underscore (String c (String c' s)))
    with (String c (strip_last_underscore (String c' s))).
  f_equal. by apply IH.
Qed.

Lemma toLowerCase_fixed (s : string) :
  all_chars is_id_char s = true → toLowerCase s = s.
Proof.
  induction s as [| c s IH]; simpl; [done |].
  intros [Hc Hs]%andb_true_iff. by rewrite (lower_char_id_char c Hc), IH.
Qed.

Lemma all_chars_no_space (s : string) :
  all_chars is_id_char s = true → all_chars (fun c => negb (is_space c)) s = true.
Proof.
  induction s as [| c s IH]; simpl; [done |].
  intros [Hc Hs]%andb_true_iff. by rewrite (is_space_id_char c Hc), IH.
Qed.

(** The result of the normalisation has the shape of a species id. *)
Lemma normalizeSpeciesToId_shape (s : string) :
  is_species_id (normalizeSpeciesToId s) = true.
Proof.
  unfold normalizeSpeciesToId, trim_underscores, is_species_id.
  set (t := replace_runs is_underscore
              (keep_chars is_id_char (replace_runs is_space (toLowerCase s)))).
  assert (Hall : all_chars is_id_char t = true).
  { apply all_chars_replace_runs; [done | apply all_chars_keep_chars]. }
  assert (Hadj : no_adjacent is_underscore t = true)
    by apply no_adjacent_replace_runs.
  rewrite all_chars_strip_last by (by apply all_chars_strip_first).
  rewrite no_adjacent_strip_last by (by apply no_adjacent_strip_first).
  rewrite starts_with_strip_last_false by (by apply starts_with_strip_first).
  rewrite ends_with_strip_last by (by apply no_adjacent_strip_first).
  done.
Qed.

(** A string of that shape is left as it is. *)
Lemma normalizeSpeciesToId_fixed (s : string) :
  is_species_id s = true → normalizeSpeciesToId s = s.
Proof.
  unfold is_species_id.
  intros [[[Hall Hadj]%andb_true_iff Hst%negb_true_iff]%andb_true_iff
            Hend%negb_true_iff]%andb_true_iff.
  unfold normalizeSpeciesToId, trim_underscores.
  rewrite toLowerCase_fixed by done.
  rewrite (replace_runs_none is_space) by (by apply all_chars_no_space).
  rewrite keep_chars_fixed by done.
  rewrite replace_runs_underscore_fixed by done.
  rewrite strip_first_fixed by done.
  by rewrite strip_last_fixed.
Qed.

(** C5. The species-id normalisation is idempotent; it sends
    "Pinus sylvestris" to "pinus_sylvestris" and leaves "pinus_sylvestris" as
    it is. *)
Theorem normalizeSpeciesToId_idempotent (s : string) :
  normalizeSpeciesToId (normalizeSpeciesToId s) = normalizeSpeciesToId s
  ∧ normalizeSpeciesToId "Pinus sylvestris" = "pinus_sylvestris"
  ∧ normalizeSpeciesToId "pinus_sylvestris" = "pinus_sylvestris".
Proof.
  split; [| split; reflexivity].
  apply normalizeSpeciesToId_fixed, normalizeSpeciesToId_shape.
Qed.

(* ================================================================= *)
(** * Further properties of the sources *)

(** ** Visibility flags of the rendered layers *)

(** X1. After the reconciliation step every fetched layer is handed to the
    renderer as visible, whatever the visible set was before; the same holds
    after [loadInitialLayers]. *)
Theorem synced_layers_all_visible (fetched : list ForestLayer) (prev : gset string) :
  forestLayersWithVisibility fetched (syncVisibleLayerIds fetched prev)
  = setVisible true <$> fetched
  ∧ forestLayersWithVisibility fetched (loadInitialLayers fetched)
    = setVisible true <$> fetched.
Proof.
  assert (H : forestLayersWithVisibility fetched (list_to_set (fl_id <$> fetched))
              = setVisible true <$> fetched).
  { unfold forestLayersWithVisibility.
    apply Forall_fmap_ext_1, Forall_forall. intros l Hl. unfold setVisible.
    rewrite bool_decide_eq_true_2; [done |].
    apply elem_of_list_to_set, list_elem_of_fmap. by exists l. }
  split; [by rewrite syncVisibleLayerIds_eq | exact H].
Qed.

(** X2. Toggling a layer id flips the visible flag of the rendered layers with
    that id and leaves every other rendered layer as it was. *)
Theorem toggleLayer_flips_visible_flag
    (ls : list ForestLayer) (x : string) (S : gset string) :
  forestLayersWithVisibility ls (toggleLayer x S)
  = (fun l => if decide (fl_id l = x) then setVisible (negb (fl_visible l)) l else l)
      <$> forestLayersWithVisibility ls S.
Proof.
  unfold forestLayersWithVisibility. rewrite <- list_fmap_compose.
  apply Forall_fmap_ext_1, Forall_forall. intros l _. simpl.
  destruct (decide (fl_id l = x)) as [Hx | Hx]; unfold setVisible; simpl; f_equal.
  - rewrite Hx. destruct (decide (x ∈ S)) as [Hin | Hout].
    + rewrite (bool_decide_eq_true_2 (x ∈ S)) by done. simpl.
      apply bool_decide_eq_false_2. rewrite elem_of_toggleLayer. tauto.
    + rewrite (bool_decide_eq_false_2 (x ∈ S)) by done. simpl.
      apply bool_decide_eq_true_2. rewrite elem_of_toggleLayer. tauto.
  - apply bool_decide_ext. rewrite elem_of_toggleLayer. tauto.
Qed.

(** ** Filters and selection of the page *)

(** X3. Choosing a region clears the department and commune filters and keeps
    the species selection and the cadastre switch, but it does not reset the
    selected department: the commune listing of the old department stays
    enabled.  Choosing a department sets that filter whether or not a region
    is set. *)
Theorem region_filter_keeps_selected_department
    (regionId departmentId : string) (st : PageState) :
  ps_filters (handleRegionFilter regionId (handleDepartmentFilter departmentId st))
  = {| region := Some regionId; department := None; commune := None;
       treeSpecies := treeSpecies (ps_filters st);
       showCadastre := showCadastre (ps_filters st);
       dateRange := dateRange (ps_filters st) |}
  ∧ selectedDepartment
      (handleRegionFilter regionId (handleDepartmentFilter departmentId st))
    = departmentId
  ∧ communesEnabled
      (handleRegionFilter regionId (handleDepartmentFilter departmentId st))
    = negb (bool_decide (departmentId = ""))
  ∧ region (ps_filters (handleDepartmentFilter departmentId (clearFilters st))) = None
  ∧ department (ps_filters (handleDepartmentFilter departmentId (clearFilters st)))
    = Some departmentId
  ∧ handleRegionFilter regionId (handleRegionFilter regionId st)
    = handleRegionFilter regionId st.
Proof. by split_and!. Qed.

(** X4. A click on the map looks at the first feature only, never changes the
    filters (so the layer queries stay as they were), and does nothing when
    there is no feature. *)
Theorem handleMapClick_first_feature_only
    (feature : ClickFeature) (others : list ClickFeature)
    (features : option (list ClickFeature)) (st : PageState) (vs : MapViewState) :
  handleMapClick (Some (feature :: others)) st = handleMapClick (Some [feature]) st
  ∧ ps_filters (handleMapClick features st) = ps_filters st
  ∧ geoQuery vs (ps_filters (handleMapClick features st)) = geoQuery vs (ps_filters st)
  ∧ handleMapClick None st = st
  ∧ handleMapClick (Some []) st = st.
Proof.
  assert (Hf : ps_filters (handleMapClick features st) = ps_filters st).
  { unfold handleMapClick. destruct features as [[| f fs] |]; try done.
    destruct (click_properties f) as [p |]; [| done].
    repeat (destruct (decide _); [done |]). done. }
  split_and!; try done. by rewrite Hf.
Qed.

(** ** What the layer queries depend on *)

(** X5. The query and both query keys depend on the view only through its
    centre and its rounded zoom: bearing, pitch and a change of zoom inside
    one rounding bucket leave them as they are. *)
Theorem geoQuery_same_centre_and_zoom_bucket
    (vs1 vs2 : MapViewState) (fs : MapFilters) :
  latitude vs1 = latitude vs2 →
  longitude vs1 = longitude vs2 →
  Math_round (zoom vs1) = Math_round (zoom vs2) →
  geoQuery vs1 fs = geoQuery vs2 fs
  ∧ forestQueryKey (geoQuery vs1 fs) = forestQueryKey (geoQuery vs2 fs)
  ∧ cadastreQueryKey (geoQuery vs1 fs) = cadastreQueryKey (geoQuery vs2 fs).
Proof.
  intros Hlat Hlng Hz.
  assert (Hq : geoQuery vs1 fs = geoQuery vs2 fs).
  { unfold geoQuery. by rewrite Hlat, Hlng, Hz. }
  by rewrite Hq.
Qed.

Lemma geoQuery_same_centre_and_zoom_bucket_witness :
  geoQuery {| latitude := 46.2276; longitude := 2.2137; zoom := 6.2;
              bearing := 0; pitch := 0 |} createDefaultFilters
  = geoQuery {| latitude := 46.2276; longitude := 2.2137; zoom := 6.4;
                bearing := 35; pitch := 20 |} createDefaultFilters
  ∧ forestQueryKey
      (geoQuery {| latitude := 46.2276; longitude := 2.2137; zoom := 6.2;
                   bearing := 0; pitch := 0 |} createDefaultFilters)
    = forestQueryKey
        (geoQuery {| latitude := 46.2276; longitude := 2.2137; zoom := 6.4;
                     bearing := 35; pitch := 20 |} createDefaultFilters)
  ∧ cadastreQueryKey
      (geoQuery {| latitude := 46.2276; longitude := 2.2137; zoom := 6.2;
                   bearing := 0; pitch := 0 |} createDefaultFilters)
    = cadastreQueryKey
        (geoQuery {| latitude := 46.2276; longitude := 2.2137; zoom := 6.4;
                     bearing := 35; pitch := 20 |} createDefaultFilters).
Proof.
  apply (geoQuery_same_centre_and_zoom_bucket
           {| latitude := 46.2276; longitude := 2.2137; zoom := 6.2;
              bearing := 0; pitch := 0 |}
           {| latitude := 46.2276; longitude := 2.2137; zoom := 6.4;
              bearing := 35; pitch := 20 |}); reflexivity.
Defined.

Lemma key_filters_showCadastre (vs : MapViewState) (f : MapFilters) :
  showCadastre <$> filters (key_query (forestQueryKey (geoQuery vs f)))
  = Some (showCadastre f)
  ∧ showCadastre <$> filters (key_query (cadastreQueryKey (geoQuery vs f)))
    = Some (showCadastre f).
Proof. done. Qed.

(** X6. The cadastre switch is part of both query keys: switching it gives
    the forest query, and the cadastre query, a key different from the one
    before. *)
Theorem query_keys_follow_showCadastre (vs : MapViewState) (f : MapFilters) :
  forestQueryKey (geoQuery vs (withShowCadastre (negb (showCadastre f)) f))
  ≠ forestQueryKey (geoQuery vs f)
  ∧ cadastreQueryKey (geoQuery vs (withShowCadastre (negb (showCadastre f)) f))
    ≠ cadastreQueryKey (geoQuery vs f).
Proof.
  split; intros Heq.
  - pose proof (proj1 (key_filters_showCadastre vs f)) as H1.
    pose proof (proj1 (key_filters_showCadastre vs
                         (withShowCadastre (negb (showCadastre f)) f))) as H2.
    rewrite Heq, H1 in H2. simpl in H2. by destruct (showCadastre f).
  - pose proof (proj2 (key_filters_showCadastre vs f)) as H1.
    pose proof (proj2 (key_filters_showCadastre vs
                         (withShowCadastre (negb (showCadastre f)) f))) as H2.
    rewrite Heq, H1 in H2. simpl in H2. by destruct (showCadastre f).
Qed.

(** ** The renderer's filter *)

Lemma rendererForestLayers_keep (fs : MapFilters) (l : ForestLayer) :
  match treeSpecies fs with
  | None | Some [] => true
  | Some sel =>
      match fl_species l with
      | Some sp => negb (bool_decide (sp = "")) && bool_decide (sp ∈ sel)
      | None => false
      end
  end = true →
  (if js_no_length (treeSpecies fs) then true
   else js_includes (treeSpecies fs) (js_or (fl_species l) "")) = true.
Proof.
  destruct (treeSpecies fs) as [[| s sel] |]; simpl; try done.
  destruct (fl_species l) as [sp |]; [| done].
  intros [Hne Hin]%andb_true_iff. simpl.
  destruct (decide (sp = "")) as [-> | _]; [done | exact Hin].
Qed.

Lemma filteredForestLayers_as_filter (ls : list ForestLayer) (fs : MapFilters) :
  filteredForestLayers ls fs
  = List.filter
      (fun l => if js_no_length (treeSpecies fs) then true
                else js_includes (treeSpecies fs) (js_or (fl_species l) "")) ls.
Proof.
  unfold filteredForestLayers. destruct (js_no_length (treeSpecies fs)); [| done].
  induction ls as [| l ls IH]; simpl; [done | by rewrite <- IH].
Qed.

(** X7. The renderer filters the layers again with a stricter test: what it
    keeps is always kept by the hook's filter, filtering the hook's result
    gives what filtering the fetched layers gives, and on layers that all
    carry a non-empty species id the two filters agree.  Its cadastre test is
    the gate of the cadastre query. *)
Theorem rendererForestLayers_refines_hook_filter
    (ls : list ForestLayer) (fs : MapFilters) :
  rendererForestLayers (filteredForestLayers ls fs) fs = rendererForestLayers ls fs
  ∧ (∀ l, l ∈ rendererForestLayers ls fs → l ∈ filteredForestLayers ls fs)
  ∧ (Forall (fun l => ∃ sp, fl_species l = Some sp ∧ sp ≠ "") ls →
     rendererForestLayers ls fs = filteredForestLayers ls fs)
  ∧ (∀ vs : MapViewState, cadastreEnabled true fs vs = shouldShowCadastre fs (zoom vs)).
Proof.
  rewrite !filteredForestLayers_as_filter. unfold rendererForestLayers.
  split_and!.
  - induction ls as [| l ls IH]; simpl; [done |].
    destruct (if js_no_length (treeSpecies fs) then true else _) eqn:Hk; simpl.
    + by rewrite IH.
    + rewrite IH.
      destruct (match treeSpecies fs with None | Some [] => true | _ => _ end) eqn:Hr;
        [| done].
      apply rendererForestLayers_keep in Hr. congruence.
  - intros l. rewrite !elem_of_List_filter. intros [Hl Hk]. split; [done |].
    by apply rendererForestLayers_keep.
  - intros Hall.
    induction Hall as [| l ls' (sp & Hsp & Hne) _ IH]; simpl; [done |].
    rewrite IH, Hsp. destruct (treeSpecies fs) as [[| s sel] |]; simpl; try done.
    rewrite decide_False by done. by rewrite bool_decide_eq_false_2 by done.
  - done.
Qed.

(** ** Forest layer assembly: what the layers hold *)

Lemma featuresOfSpecies_cons (k : string) (f : Feature ForestProps)
    (fs : list (Feature ForestProps)) :
  featuresOfSpecies k (f :: fs)
  = (if decide (speciesNameOf f = k) then [f] else []) ++ featuresOfSpecies k fs.
Proof. unfold featuresOfSpecies. rewrite filter_cons. by destruct (decide _). Qed.

Lemma concat_groups_insert {A : Type} (k0 : string) (x : A) (g : string → list A)
    (keys : list string) :
  NoDup keys →
  concat ((fun k => (if decide (k0 = k) then [x] else []) ++ g k) <$> keys)
  ≡ₚ (if decide (k0 ∈ keys) then [x] else []) ++ concat (g <$> keys).
Proof.
  induction keys as [| k ks IH]; intros Hnd.
  - simpl. by destruct (decide (k0 ∈ [])) as [H%elem_of_nil |].
  - apply NoDup_cons in Hnd as [Hk Hnd]. simpl. rewrite (IH Hnd).
    destruct (decide (k0 = k)) as [-> | Hne].
    + rewrite (decide_True (P := k ∈ k :: ks)) by (by left).
      by rewrite (decide_False (P := k ∈ ks)) by done.
    + simpl. destruct (decide (k0 ∈ ks)) as [Hin | Hout].
      * rewrite (decide_True (P := k0 ∈ k :: ks)) by (by right).
        simpl. by rewrite Permutation_middle.
      * rewrite (decide_False (P := k0 ∈ k :: ks)); [done |].
        rewrite elem_of_cons. tauto.
Qed.

Lemma concat_featuresOfSpecies (fs : list (Feature ForestProps)) (keys : list string) :
  NoDup keys →
  (∀ f, f ∈ fs → speciesNameOf f ∈ keys) →
  concat ((fun k => featuresOfSpecies k fs) <$> keys) ≡ₚ fs.
Proof.
  intros Hnd. induction fs as [| f fs IH]; intros Hcover.
  - clear. induction keys as [| k ks IH]; simpl; [done | exact IH].
  - rewrite (Forall_fmap_ext_1 _
               (fun k => (if decide (speciesNameOf f = k) then [f] else [])
                         ++ featuresOfSpecies k fs)).
    2: { apply Forall_forall. intros k _. apply featuresOfSpecies_cons. }
    rewrite concat_groups_insert by done.
    rewrite decide_True by (apply Hcover; by left).
    simpl. constructor. apply IH. intros f' Hf'. apply Hcover. by right.
Qed.


(** X9. Every assembled layer is visible, of type forest, and has the id
    "forest-" followed by its species id; that id is made of [[a-z0-9_]] only,
    with no doubled underscore and none at either end. *)
Theorem forestLayersOf_ids_well_formed (forestData : FeatureCollection ForestProps) :
  Forall (fun l => ∃ id, fl_id l = "forest-" +:+ id
                          ∧ fl_species l = Some id
                          ∧ is_species_id id = true
                          ∧ fl_visible l = true
                          ∧ fl_type l = forest)
         (forestLayersOf forestData).
Proof.
  unfold forestLayersOf. apply Forall_fmap, Forall_forall. intros e _. simpl.
  exists (normalizeSpeciesToId e.1). split_and!; try done.
  apply normalizeSpeciesToId_shape.
Qed.



Lemma List_filter_fmap {A B : Type} (p : B → bool) (g : A → B) (l : list A) :
  List.filter p (g <$> l) = g <$> List.filter (fun a => p (g a)) l.
Proof.
  induction l as [| a l IH]; [done |].
  rewrite fmap_cons. cbn [List.filter].
  destruct (p (g a)); [rewrite fmap_cons |]; by rewrite IH.
Qed.


(** X12. When the forest request fails, the fetch gives the empty collection
    and the assembly no layer; the reconciliation with no layer then empties
    the visible set. *)
Theorem failed_fetch_empties_layers
    (apiClient : AxiosConfig → Completion (AxiosResponse (option ForestBody)))
    (authToken : option string) (query : GeospatialQuery) (error : JsError)
    (prev : gset string) :
  apiClient (addAuthHeader (forestRequest query) authToken) = Throw error →
  getForestData apiClient authToken query = Normal emptyFeatureCollection
  ∧ getForestLayers apiClient authToken query = Normal []
  ∧ syncVisibleLayerIds [] prev = ∅.
Proof.
  intros Herr.
  assert (Hd : getForestData apiClient authToken query = Normal emptyFeatureCollection).
  { unfold getForestData. simpl. by rewrite Herr. }
  split_and!; [exact Hd | unfold getForestLayers; by rewrite Hd |].
  by rewrite syncVisibleLayerIds_eq.
Qed.

Lemma failed_fetch_empties_layers_witness :
  getForestData (fun _ => Throw RequestError) None
    (geoQuery initialViewState createDefaultFilters)
  = Normal emptyFeatureCollection
  ∧ getForestLayers (fun _ => Throw RequestError) None
      (geoQuery initialViewState createDefaultFilters)
    = Normal []
  ∧ syncVisibleLayerIds [] {["forest-quercus_robur"]} = ∅.
Proof.
  apply (failed_fetch_empties_layers (fun _ => Throw RequestError) None
           (geoQuery initialViewState createDefaultFilters) RequestError).
  reflexivity.
Defined.

(** X13. The layer fetches never reject: whatever the HTTP client does,
    [getForestLayers] resolves to a list of layers, and so does
    [getCadastreLayers]. *)
Theorem layer_fetches_never_throw
    (apiClient : AxiosConfig → Completion (AxiosResponse (option ForestBody)))
    (authToken : option string) (query : GeospatialQuery) :
  (∃ ls, getForestLayers apiClient authToken query = Normal ls)
  ∧ (∃ cs, getCadastreLayers query = Normal cs).
Proof.
  split; [| by eexists].
  destruct (getForestData_never_throws apiClient authToken query) as [fc Hfc].
  unfold getForestLayers. rewrite Hfc. by eexists.
Qed.

(** ** Authentication service *)

Lemma js_or_nonempty (a : option string) (d : string) : d ≠ "" → js_or a d ≠ "".
Proof.
  intros Hd. destruct a as [s |]; simpl; [| done].
  by destruct (decide (s = "")).
Qed.

Lemma js_string_text_like (s : string) : text_like (js_string s).
Proof.
  unfold text_like, js_string. simpl.
  intros H%negb_true_iff. by apply bool_decide_eq_false in H.
Qed.

Lemma js_error_text_nonempty (a b : option JsAny) (d : string) :
  d ≠ "" →
  (∀ v, a = Some v → text_like v) →
  (∀ v, b = Some v → text_like v) →
  js_error_text (js_or_any a b) d ≠ "".
Proof.
  intros Hd Ha Hb. unfold js_error_text, js_or_any.
  destruct a as [va |].
  - destruct (js_truthy va) eqn:Hva.
    + rewrite Hva. by apply (Ha va).
    + destruct b as [vb |]; [| done].
      destruct (js_truthy vb) eqn:Hvb; [by apply (Hb vb) | done].
  - destruct b as [vb |]; [| done].
    destruct (js_truthy vb) eqn:Hvb; [by apply (Hb vb) | done].
Qed.

Lemma handleAuthError_is_error (e : JsError) : ∃ m, handleAuthError e = PlainError m.
Proof.
  destruct e as [r | | m]; cbn [handleAuthError]; [| by eexists | by eexists].
  repeat (destruct (decide (er_status r = _))); by eexists.
Qed.

Lemma handleAuthError_nonempty (e : JsError) :
  (∀ r, e = ResponseError r → body_text_like r) →
  ∃ m, handleAuthError e = PlainError m ∧ m ≠ "".
Proof.
  intros Hbody. destruct e as [r | | m]; cbn [handleAuthError].
  - destruct (Hbody r eq_refl) as [Hm He].
    repeat (destruct (decide (er_status r = _))); eexists; (split; [reflexivity |]);
      try done; by apply js_error_text_nonempty.
  - by eexists.
  - eexists. split; [reflexivity |]. by apply js_or_nonempty.
Qed.

(** X14. [handleAuthError] always gives an [Error].  A 401 and a 409 answer
    give their fixed messages and a missing answer the connection message,
    whatever the body holds.  When the body's [message] and [error] are
    text-like (strings, or absent) the message is not empty and handling the
    result again changes nothing; a truthy value that converts to the empty
    string, such as an empty array under status 400, gives an empty message,
    which a second handling replaces by "Unexpected error". *)
Theorem handleAuthError_message (e : JsError) :
  (∃ m, handleAuthError e = PlainError m)
  ∧ ((∀ r, e = ResponseError r → body_text_like r) →
     (∃ m, handleAuthError e = PlainError m ∧ m ≠ "")
     ∧ handleAuthError (handleAuthError e) = handleAuthError e)
  ∧ (∀ msg err,
       handleAuthError (ResponseError {| er_status := 401; er_message := msg;
                                         er_error := err |})
       = PlainError "Invalid credentials"
       ∧ handleAuthError (ResponseError {| er_status := 409; er_message := msg;
                                           er_error := err |})
         = PlainError "Email is already registered")
  ∧ handleAuthError RequestError
    = PlainError "Connection error. Please check your internet connection."
  ∧ (∀ (s : string) err, s ≠ "" →
       handleAuthError (ResponseError {| er_status := 400;
                                         er_message := Some (js_string s);
                                         er_error := err |})
       = PlainError s)
  ∧ (∀ err,
       handleAuthError (ResponseError {| er_status := 400;
                                         er_message := Some js_empty_array;
                                         er_error := err |})
       = PlainError ""
       ∧ handleAuthError (PlainError "") = PlainError "Unexpected error").
Proof.
  split_and!; [apply handleAuthError_is_error | | done | done | | done].
  - intros Hbody. split; [by apply handleAuthError_nonempty |].
    destruct (handleAuthError_nonempty e Hbody) as (m & -> & Hm). simpl.
    by rewrite decide_False.
  - intros s err Hs. unfold handleAuthError, js_or_any, js_error_text, js_string.
    simpl. by rewrite !(bool_decide_eq_false_2 (s = "")) by done.
Qed.

(** X15. A registration that fails never hands the HTTP client's error to the
    caller: it throws the [Error] made by [handleAuthError].  For a 409 answer
    its message is "Email is already registered", and when the body of the
    answer is text-like the message is not empty. *)
Theorem register_failure_message
    (post : PostRequest → Completion (AxiosResponse RegisterResponse))
    (credentials : RegisterCredentials) (error : JsError) :
  post (registerRequest credentials) = Throw error →
  register post credentials = Throw (handleAuthError error)
  ∧ (∃ m, register post credentials = Throw (PlainError m))
  ∧ ((∀ r, error = ResponseError r → body_text_like r) →
     ∃ m, register post credentials = Throw (PlainError m) ∧ m ≠ "")
  ∧ (∀ r, error = ResponseError r → er_status r = 409%Z →
          register post credentials
          = Throw (PlainError "Email is already registered")).
Proof.
  intros Hpost.
  assert (Hr : register post credentials = Throw (handleAuthError error)).
  { unfold register. by rewrite Hpost. }
  split_and!; [exact Hr | | |].
  - destruct (handleAuthError_is_error error) as (m & Hm).
    exists m. by rewrite Hr, Hm.
  - intros Hbody. destruct (handleAuthError_nonempty error Hbody) as (m & Hm & Hne).
    exists m. by rewrite Hr, Hm.
  - intros r -> H409. rewrite Hr. simpl. rewrite H409. done.
Qed.

Lemma register_failure_message_witness :
  register
    (fun _ => Throw (ResponseError {| er_status := 409;
                                      er_message := Some (js_string "duplicate key");
                                      er_error := None |}))
    {| rc_name := "Ada Lovelace"; rc_email := "ada@example.org";
       rc_password := "Secret1" |}
  = Throw (PlainError "Email is already registered").
Proof.
  apply (register_failure_message
           (fun _ => Throw (ResponseError {| er_status := 409;
                                             er_message := Some (js_string "duplicate key");
                                             er_error := None |}))
           {| rc_name := "Ada Lovelace"; rc_email := "ada@example.org";
              rc_password := "Secret1" |}
           (ResponseError {| er_status := 409;
                             er_message := Some (js_string "duplicate key");
                             er_error := None |})
           eq_refl).
Defined.


(** ** Session state *)

Lemma authReducer_consistent (s : AuthState) (a : AuthAction) :
  auth_consistent s → auth_consistent (authReducer s a).
Proof.
  intros [Hon Hoff]. destruct a; split; simpl; intros H; try done.
  - destruct (Hon H) as (? & ? & _). done.
  - by apply Hoff.
  - by destruct (Hon H) as (? & ? & _).
  - by apply Hoff.
  - by apply Hon.
  - by apply Hoff.
Qed.

(** X17. Every state the reducer reaches from the initial state is
    consistent: authenticated exactly when a user and an access token are
    held, an authenticated state shows no error, and an unauthenticated one
    keeps no token. *)
Theorem authReducer_reachable_consistent (actions : list AuthAction) :
  auth_consistent (foldl authReducer initialAuthState actions)
  ∧ (isAuthenticated (foldl authReducer initialAuthState actions) = true
     ↔ is_Some (as_user (foldl authReducer initialAuthState actions))
       ∧ is_Some (as_accessToken (foldl authReducer initialAuthState actions))).
Proof.
  assert (H : auth_consistent (foldl authReducer initialAuthState actions)).
  { induction actions as [| a actions IH] using rev_ind.
    - by split.
    - rewrite foldl_snoc. by apply authReducer_consistent. }
  split; [exact H |].
  destruct H as [Hon Hoff]. split.
  - intros Ha. by destruct (Hon Ha) as (? & ? & _).
  - intros [Hu _].
    destruct (isAuthenticated (foldl authReducer initialAuthState actions)) eqn:Ha;
      [done |].
    destruct (Hoff eq_refl) as (Hnone & _). rewrite Hnone in Hu.
    by destruct Hu.
Qed.

Lemma login_throws_plain (post : PostRequest → Completion (AxiosResponse LoginResponse))
    (credentials : LoginCredentials) (e : JsError) :
  login post credentials = Throw e → ∃ m, e = PlainError m.
Proof.
  unfold login. destruct (post _) as [r | e']; simpl; [done |].
  intros [= <-]. apply handleAuthError_is_error.
Qed.

Lemma register_throws_plain
    (post : PostRequest → Completion (AxiosResponse RegisterResponse))
    (credentials : RegisterCredentials) (e : JsError) :
  register post credentials = Throw e → ∃ m, e = PlainError m.
Proof.
  unfold register. destruct (post _) as [r | e']; simpl; [done |].
  intros [= <-]. apply handleAuthError_is_error.
Qed.

Lemma contextLogin_outcome_flag
    (post_login : PostRequest → Completion (AxiosResponse LoginResponse))
    (credentials : LoginCredentials) (state : AuthState) :
  (contextLogin post_login credentials state).2
  = isAuthenticated (contextLogin post_login credentials state).1.
Proof. unfold contextLogin. by destruct (login post_login credentials). Qed.



(** ** Map configuration *)

Lemma js_startsWith_pk_nonempty (t : string) : js_startsWith "pk." t = true → t ≠ "".
Proof. by destruct t. Qed.

Lemma validateMapboxToken_spec (t : string) :
  validateMapboxToken t = if js_startsWith "pk." t then t else "".
Proof.
  unfold validateMapboxToken. destruct (js_startsWith "pk." t) eqn:Hp.
  - rewrite bool_decide_eq_false_2; [done |]. by apply js_startsWith_pk_nonempty.
  - by rewrite andb_false_r.
Qed.

(** X20. The map configuration is built exactly when the configured token
    starts with "pk."; an override cannot stand in for a missing or malformed
    configured token.  When it is built, each field is the override's when the
    override has it, and otherwise the configured token, the streets style,
    the default view and all four controls.  Validating a token gives the
    token itself or the empty string, and validating twice is validating
    once. *)
Theorem createMapConfig_needs_configured_token
    (env_accessToken : option string) (defaultView : MapViewState)
    (overrides : option MapConfigOverrides) :
  ((∃ cfg, createMapConfig env_accessToken defaultView overrides = Normal cfg)
   ↔ ∃ t, env_accessToken = Some t ∧ js_startsWith "pk." t = true)
  ∧ (∀ t, env_accessToken = Some t → js_startsWith "pk." t = true →
       createMapConfig env_accessToken defaultView None
       = Normal {| accessToken := t; mapStyle := Some MAP_STYLES_STREETS;
                   cfg_initialViewState := defaultView;
                   controls := Some {| navigation := true; fullscreen := true;
                                       geolocate := true; scale := true |} |}
       ∧ ∀ o, createMapConfig env_accessToken defaultView (Some o)
              = Normal {| accessToken := default t (o_accessToken o);
                          mapStyle := default (Some MAP_STYLES_STREETS) (o_mapStyle o);
                          cfg_initialViewState :=
                            default defaultView (o_initialViewState o);
                          controls :=
                            default (Some {| navigation := true; fullscreen := true;
                                             geolocate := true; scale := true |})
                                    (o_controls o) |})
  ∧ (∀ t, validateMapboxToken (validateMapboxToken t) = validateMapboxToken t
          ∧ (validateMapboxToken t = t ∨ validateMapboxToken t = "")
          ∧ (validateMapboxToken t ≠ "" ↔ js_startsWith "pk." t = true)).
Proof.
  assert (Hok : ∀ t o, js_startsWith "pk." t = true →
            createMapConfig (Some t) defaultView o
            = match o with
              | None =>
                  Normal {| accessToken := t; mapStyle := Some MAP_STYLES_STREETS;
                            cfg_initialViewState := defaultView;
                            controls := Some {| navigation := true; fullscreen := true;
                                                geolocate := true; scale := true |} |}
              | Some o =>
                  Normal {| accessToken := default t (o_accessToken o);
                            mapStyle := default (Some MAP_STYLES_STREETS) (o_mapStyle o);
                            cfg_initialViewState :=
                              default defaultView (o_initialViewState o);
                            controls :=
                              default (Some {| navigation := true; fullscreen := true;
                                               geolocate := true; scale := true |})
                                      (o_controls o) |}
              end).
  { intros t o Hp. unfold createMapConfig.
    pose proof (js_startsWith_pk_nonempty t Hp) as Hne.
    rewrite (bool_decide_eq_false_2 (t = "")) by done.
    rewrite validateMapboxToken_spec, Hp.
    rewrite (bool_decide_eq_false_2 (t = "")) by done.
    by destruct o. }
  split_and!.
  - split.
    + intros [cfg Hcfg]. unfold createMapConfig in Hcfg.
      destruct env_accessToken as [t |]; [| done]. exists t. split; [done |].
      destruct (bool_decide (t = "")); [done |].
      rewrite validateMapboxToken_spec in Hcfg.
      destruct (js_startsWith "pk." t); [done |].
      by rewrite bool_decide_eq_true_2 in Hcfg.
    + intros (t & -> & Hp). rewrite (Hok t overrides Hp).
      destruct overrides; by eexists.
  - intros t -> Hp. split; [apply (Hok t None Hp) |].
    intros o. apply (Hok t (Some o) Hp).
  - intros t. rewrite !validateMapboxToken_spec.
    destruct (js_startsWith "pk." t) eqn:Hp.
    + rewrite Hp. split_and!; [done | by left |].
      split; [done |]. intros _. by apply js_startsWith_pk_nonempty.
    + split_and!; [done | by right |]. split; [done | done].
Qed.

(** ** Administrative listings *)

(** X21. [getCommunes] never rejects, and every commune it returns belongs to
    the requested department and has its code as id, whether the listing came
    from the API (one commune per entry, in order) or, after a failure, from
    the fallback (two communes numbered 001 and 002 under the department's
    code). *)
Theorem getCommunes_department_consistent
    (fetchJson : string → Completion (list RawDivision)) (departmentCode : string) :
  (∃ cs, getCommunes fetchJson departmentCode = Normal cs
         ∧ Forall (fun c => departmentId c = departmentCode
                            ∧ commune_id c = commune_code c
                            ∧ lieuxDits c = []) cs)
  ∧ (∀ raw, fetchJson (GEO_API +:+ "/departements/" +:+ departmentCode +:+ "/communes")
            = Normal raw →
       ∃ cs, getCommunes fetchJson departmentCode = Normal cs
             ∧ commune_code <$> cs = raw_code <$> raw
             ∧ commune_name <$> cs = raw_nom <$> raw)
  ∧ (∀ e, fetchJson (GEO_API +:+ "/departements/" +:+ departmentCode +:+ "/communes")
          = Throw e →
       ∃ cs, getCommunes fetchJson departmentCode = Normal cs
             ∧ commune_code <$> cs
               = [departmentCode +:+ "001"; departmentCode +:+ "002"]).
Proof.
  unfold getCommunes.
  destruct (fetchJson _) as [raw | e]; simpl.
  - split_and!.
    + eexists. split; [reflexivity |]. apply Forall_fmap, Forall_forall.
      by intros c _.
    + intros raw' [= <-]. eexists. split; [reflexivity |].
      rewrite <- !list_fmap_compose. done.
    + done.
  - split_and!.
    + eexists. split; [reflexivity |]. by repeat constructor.
    + done.
    + intros e' _. by eexists.
Qed.

(** X22. [getRegions] never rejects and every region it returns has its code
    as id and no department loaded; after a failure the listing is the
    fallback of three regions, with codes 75, 76 and 84. *)
Theorem getRegions_fallback (fetchJson : string → Completion (list RawDivision)) :
  (∃ rs, getRegions fetchJson = Normal rs
         ∧ Forall (fun r => region_id r = region_code r ∧ departments r = []) rs)
  ∧ (∀ raw, fetchJson (GEO_API +:+ "/regions") = Normal raw →
       ∃ rs, getRegions fetchJson = Normal rs
             ∧ region_code <$> rs = raw_code <$> raw
             ∧ region_name <$> rs = raw_nom <$> raw)
  ∧ (∀ e, fetchJson (GEO_API +:+ "/regions") = Throw e →
       ∃ rs, getRegions fetchJson = Normal rs
             ∧ region_code <$> rs = ["75"; "76"; "84"]).
Proof.
  unfold getRegions.
  destruct (fetchJson _) as [raw | e]; simpl.
  - split_and!.
    + eexists. split; [reflexivity |]. apply Forall_fmap, Forall_forall.
      by intros c _.
    + intros raw' [= <-]. eexists. split; [reflexivity |].
      rewrite <- !list_fmap_compose. done.
    + done.
  - split_and!.
    + eexists. split; [reflexivity |]. by repeat constructor.
    + done.
    + intros e' _. by eexists.
Qed.

(** ** Species ids and letter case *)

Lemma lower_char_idempotent (c : ascii) : lower_char (lower_char c) = lower_char c.
Proof. destruct c as [[] [] [] [] [] [] [] []]; reflexivity. Qed.

Lemma toLowerCase_idempotent (s : string) : toLowerCase (toLowerCase s) = toLowerCase s.
Proof.
  induction s as [| c s IH]; simpl; [done |].
  by rewrite lower_char_idempotent, IH.
Qed.

(** X23. The species id does not depend on the letter case of the species
    value: a value and its lower-case form have the same id, so two values
    that differ in case alone are assembled into layers with the same id. *)
Theorem normalizeSpeciesToId_case_insensitive (s t : string) :
  normalizeSpeciesToId (toLowerCase s) = normalizeSpeciesToId s
  ∧ (toLowerCase s = toLowerCase t → normalizeSpeciesToId s = normalizeSpeciesToId t)
  ∧ normalizeSpeciesToId "QUERCUS ROBUR" = normalizeSpeciesToId "Quercus robur".
Proof.
  split_and!; [| | done].
  - unfold normalizeSpeciesToId. by rewrite toLowerCase_idempotent.
  - intros Heq. unfold normalizeSpeciesToId. by rewrite Heq.
Qed.

(** ** Debounced view state *)

Lemma debounce_run_burst {T : Type} `{EqDecision T} (delay : Z)
    (events : list (Z * T)) :
  ∀ (st : DebounceState T) (due : Z) (t : Z) (v : T),
    handler st = Some (due, db_value st) →
    within_burst delay due (db_value st) events = true →
    last events = Some (t, v) →
    debouncedValue (debounce_run delay st events) = debouncedValue st
    ∧ handler (debounce_run delay st events)
      = Some (burst_due delay due (db_value st) events, v).
Proof.
  induction events as [| e es IH]; intros st due t v Hh Hb Hlast; [done |].
  cbn [within_burst] in Hb. apply andb_true_iff in Hb as [Hlt%bool_decide_eq_true Hb].
  assert (Hadv : debounce_advance e.1 st = st).
  { unfold debounce_advance. rewrite Hh. by rewrite decide_False by lia. }
  unfold debounce_run. cbn [foldl burst_due].
  fold (debounce_run delay (debounce_change delay st e) es).
  unfold debounce_change. rewrite Hadv.
  destruct (decide (e.2 = db_value st)) as [Hsame | Hnew].
  - destruct es as [| e' es'].
    + simpl in Hlast. injection Hlast as Hlast. subst e. simpl in *.
      by rewrite Hh, Hsame.
    + by apply (IH st due t v).
  - destruct es as [| e' es'].
    + simpl in Hlast. injection Hlast as Hlast. by subst e.
    + destruct (IH {| db_value := e.2; debouncedValue := debouncedValue st;
                      handler := Some ((e.1 + delay)%Z, e.2) |}
                   (e.1 + delay)%Z t v) as [Hv Hh']; done.
Qed.

(** X24. While every render arrives before the pending timer is due, the
    debounced value stays what it was, a render with the value of the render
    before it leaving the timer as it is and a render with a new value
    re-arming it.  Once the pending timer is due, which is the delay after the
    last render that changed the value, the debounced value is the last value;
    no value in between is ever returned.  A render that arrives when the
    timer is due lets the timer's value through first. *)
Theorem debounce_burst_emits_last_value {T : Type} `{EqDecision T} (delay : Z)
    (st : DebounceState T) (due : Z) (events : list (Z * T))
    (t : Z) (v : T) :
  handler st = Some (due, db_value st) →
  within_burst delay due (db_value st) events = true →
  last events = Some (t, v) →
  debouncedValue (debounce_run delay st events) = debouncedValue st
  ∧ (∀ now, (now < burst_due delay due (db_value st) events)%Z →
       debouncedValue (debounce_advance now (debounce_run delay st events))
       = debouncedValue st)
  ∧ (∀ now, (burst_due delay due (db_value st) events ≤ now)%Z →
       debouncedValue (debounce_advance now (debounce_run delay st events)) = v)
  ∧ (∀ e : Z * T, (due ≤ e.1)%Z →
       debouncedValue (debounce_change delay st e) = db_value st).
Proof.
  intros Hh Hb Hlast.
  destruct (debounce_run_burst delay events st due t v Hh Hb Hlast) as [Hv Hh'].
  split_and!.
  - exact Hv.
  - intros now Hnow. unfold debounce_advance. rewrite Hh'.
    by rewrite decide_False by lia.
  - intros now Hnow. unfold debounce_advance. rewrite Hh'.
    by rewrite decide_True by lia.
  - intros e He. unfold debounce_change, debounce_advance. rewrite Hh.
    destruct (decide (due ≤ e.1)%Z); [| lia]. simpl. by destruct (decide _).
Qed.

Lemma debounce_burst_emits_last_value_witness :
  debouncedValue
    (debounce_run 300 (debounce_mount 300 0 "a") [(10%Z, "b"); (200%Z, "c")])
  = debouncedValue (debounce_mount 300 0 "a")
  ∧ (∀ now, (now < 500)%Z →
       debouncedValue
         (debounce_advance now
            (debounce_run 300 (debounce_mount 300 0 "a")
               [(10%Z, "b"); (200%Z, "c")]))
       = debouncedValue (debounce_mount 300 0 "a"))
  ∧ (∀ now, (500 ≤ now)%Z →
       debouncedValue
         (debounce_advance now
            (debounce_run 300 (debounce_mount 300 0 "a")
               [(10%Z, "b"); (200%Z, "c")]))
       = "c")
  ∧ (∀ e : Z * string, (300 ≤ e.1)%Z →
       debouncedValue (debounce_change 300 (debounce_mount 300 0 "a") e) = "a").
Proof.
  exact (debounce_burst_emits_last_value 300 (debounce_mount 300 0 "a") 300
           [(10%Z, "b"); (200%Z, "c")] 200 "c" eq_refl eq_refl eq_refl).
Defined.

(** A render that repeats the value keeps the timer: after "b" at 100 and "b"
    again at 350 the timer is still due at 400, and "b" is returned from then
    on. *)
Example debounce_repeated_value :
  handler (debounce_run 300 (debounce_mount 300 0 "a") [(100%Z, "b"); (350%Z, "b")])
  = Some (400%Z, "b")
  ∧ debouncedValue
      (debounce_advance 399
         (debounce_run 300 (debounce_mount 300 0 "a") [(100%Z, "b"); (350%Z, "b")]))
    = "a"
  ∧ debouncedValue
      (debounce_advance 400
         (debounce_run 300 (debounce_mount 300 0 "a") [(100%Z, "b"); (350%Z, "b")]))
    = "b".
Proof. split_and!; reflexivity. Qed.

(** ** Restoring a session *)

(** X25. Restoring the session from local storage always ends the loading
    state.  From the initial state it authenticates exactly when a non-empty
    token and a user are both stored, and then holds that user and token; in
    every other case nothing but the loading flag changes. *)
Theorem refreshAuth_restores_session
    (storedToken : option string) (storedUser : option User)
    (storedRefreshToken : option string) (state : AuthState) :
  isLoading (refreshAuth storedToken storedUser storedRefreshToken state) = false
  ∧ (isAuthenticated
       (refreshAuth storedToken storedUser storedRefreshToken initialAuthState) = true
     ↔ (∃ t, storedToken = Some t ∧ t ≠ "") ∧ is_Some storedUser)
  ∧ (∀ t u, storedToken = Some t → t ≠ "" → storedUser = Some u →
       as_user (refreshAuth storedToken storedUser storedRefreshToken state) = Some u
       ∧ as_accessToken (refreshAuth storedToken storedUser storedRefreshToken state)
         = Some t
       ∧ isAuthenticated (refreshAuth storedToken storedUser storedRefreshToken state)
         = true)
  ∧ ((storedToken = None ∨ storedToken = Some "" ∨ storedUser = None) →
     refreshAuth storedToken storedUser storedRefreshToken state
     = authReducer state (SET_LOADING false)).
Proof.
  unfold refreshAuth.
  destruct storedToken as [tok |], storedUser as [usr |]; simpl.
  - destruct (decide (tok = "")) as [-> | Hne].
    + rewrite !(bool_decide_eq_true_2 ("" = "")) by done. simpl.
      split_and!; try done.
      * split; [done |]. intros [(t' & Heq & Ht) _]. by injection Heq as <-.
      * intros t' u' Heq Ht. by injection Heq as <-.
    + rewrite !(bool_decide_eq_false_2 (tok = "")) by done. simpl.
      split_and!; try done.
      * split; [| done]. intros _. split; [by exists tok | done].
      * intros [H | [H | H]]; [done | by injection H | done].
  - split_and!; try done.
    split; [done |]. by intros [_ [u' Hu]].
  - split_and!; try done.
    split; [done |]. by intros [(t' & Ht & _) _].
  - split_and!; try done.
    split; [done |]. by intros [(t' & Ht & _) _].
Qed.
